(** * MaixCAM gimbal tracker: candidate selection, tracking state, serial link

    A shallow embedding of [maixcam/maixcam.py].  Blob descriptors carry the
    integer fields MaixPy's blob accessors return; the derived quantities the
    source computes in Python floats (score, aspect, density, the weighted
    bounds) are computed here in exact rationals [Q], so rounding of binary64
    arithmetic is idealised away: where two blobs score exactly the same here,
    the script's rounded scores may still differ, so nothing below says which
    of several equally scoring blobs is kept.  Control flow ([continue], [raise],
    [try]/[except]) and the mutable locals of the scan loop are modelled with a
    small state-and-signal monad. *)

From Stdlib Require Import ZArith QArith Bool List String Ascii Lia Lqa DecimalString.
From Stdlib Require Import Permutation DecimalZ.
Import ListNotations.

Local Open Scope Z_scope.

(** ** Python scalars *)

(** Truthiness of a Python [int]. *)
Definition truthy (n : Z) : bool := negb (n =? 0).

Definition Qlt_bool (x y : Q) : bool := negb (Qle_bool y x).
Definition Qgt_bool (x y : Q) : bool := Qlt_bool y x.

Definition QofZ : Z -> Q := inject_Z.

(** ** Data model *)

(** What the scan reads off a MaixPy blob: [area()], [rect()], [cx()], [cy()]. *)
Record Blob := mkBlob {
  area : Z;
  rect_x : Z;
  rect_y : Z;
  rect_w : Z;
  rect_h : Z;
  cx : Z;
  cy : Z
}.

Definition rect (b : Blob) : Z * Z * Z * Z :=
  (rect_x b, rect_y b, rect_w b, rect_h b).

(** The grey image is only asked for its size. *)
Record Image := mkImage { width : Z; height : Z }.

(** The tunable constants at the top of the script. *)
Record Config := mkConfig {
  MIN_AREA : Z;
  MAX_AREA : Z;
  MIN_W : Z;
  MIN_H : Z;
  MAX_W_RATIO : Q;
  MAX_H_RATIO : Q;
  MIN_ASPECT : Q;
  MAX_ASPECT : Q;
  MIN_DENSITY : Q;
  MAX_DENSITY : Q;
  RELAX_MAX_DENSITY : Q;
  CENTER_WEIGHT : Q;
  TRACK_WEIGHT : Q;
  EDGE_MARGIN : Z
}.

(** The values the script ships with. *)
Definition shipped : Config := {|
  MIN_AREA := 100;
  MAX_AREA := 15000;
  MIN_W := 25;
  MIN_H := 10;
  MAX_W_RATIO := 85 # 100;
  MAX_H_RATIO := 85 # 100;
  MIN_ASPECT := 3 # 10;
  MAX_ASPECT := 35 # 10;
  MIN_DENSITY := 1 # 100;
  MAX_DENSITY := 45 # 100;
  RELAX_MAX_DENSITY := 95 # 100;
  CENTER_WEIGHT := 4 # 10;
  TRACK_WEIGHT := 12 # 10;
  EDGE_MARGIN := 0
|}.

Definition IMG_WIDTH : Z := 240.
Definition IMG_HEIGHT : Z := 240.

(** Confidence tiers and the integer tag the scan returns for each. *)
Inductive Tier := TierNone | TierAccepted | TierRelaxed | TierFallback.

Definition tier_code (t : Tier) : Z :=
  match t with
  | TierNone => 0
  | TierAccepted => 1
  | TierRelaxed => 3
  | TierFallback => 4
  end.

(** ** Exceptions, signals and the scan monad *)

Inductive exn :=
| ZeroDivisionError
| TypeError
| ExcEdge          (* Exception("edge") *)
| ExcIO.           (* a failure raised by the UART driver *)

(** How a statement sequence ends: it falls through with a value, executes
    [continue], or raises. *)
Inductive outcome (A : Type) :=
| Normal (a : A)
| Continue
| Raise (e : exn).
Arguments Normal {A} a.
Arguments Continue {A}.
Arguments Raise {A} e.

(** The six loop-carried locals of [find_white_frame_center]. *)
Record Locals := mkLocals {
  best : option Blob;
  best_score : option Q;
  relaxed : option Blob;
  relaxed_score : option Q;
  fallback : option Blob;
  fallback_score : option Q
}.

Definition locals0 : Locals := mkLocals None None None None None None.

Definition M (A : Type) : Type := Locals -> Locals * outcome A.

Definition ret {A} (a : A) : M A := fun s => (s, Normal a).

Definition bind {A B} (m : M A) (k : A -> M B) : M B :=
  fun s =>
    match m s with
    | (s', Normal a) => k a s'
    | (s', Continue) => (s', Continue)
    | (s', Raise e) => (s', Raise e)
    end.

Definition continue_ {A} : M A := fun s => (s, Continue).
Definition raise {A} (e : exn) : M A := fun s => (s, Raise e).
Definition gets {A} (f : Locals -> A) : M A := fun s => (s, Normal (f s)).
Definition modify (f : Locals -> Locals) : M unit := fun s => (f s, Normal tt).

(** [try: m except Exception: h] -- a raise inside [m] runs the handler on the
    locals as they were at the raise; [continue] is not an exception. *)
Definition try_except {A} (m : M A) (h : exn -> M A) : M A :=
  fun s =>
    match m s with
    | (s', Raise e) => h e s'
    | r => r
    end.

Declare Scope scan_scope.
Delimit Scope scan_scope with scan.
Notation "'do' x <- m ;; k" := (bind m (fun x => k))
  (at level 10, x name, m at level 100, k at level 200) : scan_scope.
Notation "'exec' m ;; k" := (bind m (fun _ => k))
  (at level 10, m at level 100, k at level 200) : scan_scope.

(** [for b in blobs: body] -- [continue] and normal completion both move on to
    the next element, an uncaught raise leaves the loop. *)
Fixpoint for_each (body : Blob -> M unit) (blobs : list Blob) : M unit :=
  match blobs with
  | [] => ret tt
  | b :: rest =>
      fun s =>
        match body b s with
        | (s', Raise e) => (s', Raise e)
        | (s', _) => for_each body rest s'
        end
  end.

(** True division [a / b]; Python raises on a zero divisor. *)
Definition py_div (a b : Z) : M Q :=
  if b =? 0 then raise ZeroDivisionError else ret (QofZ a / QofZ b)%Q.

(** [score > kept] where [kept] may still be [None]; comparing a float with
    [None] is a [TypeError]. *)
Definition py_gt (score : Q) (kept : option Q) : M bool :=
  match kept with
  | Some v => ret (Qgt_bool score v)
  | None => raise TypeError
  end.

(** [slot is None or score > slot_score], with Python's short circuit. *)
Definition is_none_or_gt (slot : option Blob) (score : Q) (kept : option Q) : M bool :=
  match slot with
  | None => ret true
  | Some _ => py_gt score kept
  end.

Definition set_fallback (b : Blob) (score : Q) (s : Locals) : Locals :=
  mkLocals (best s) (best_score s) (relaxed s) (relaxed_score s) (Some b) (Some score).
Definition set_relaxed (b : Blob) (score : Q) (s : Locals) : Locals :=
  mkLocals (best s) (best_score s) (Some b) (Some score) (fallback s) (fallback_score s).
Definition set_best (b : Blob) (score : Q) (s : Locals) : Locals :=
  mkLocals (Some b) (Some score) (relaxed s) (relaxed_score s) (fallback s) (fallback_score s).

(** ** [find_white_frame_center] *)

Section Scan.
Variable cfg : Config.
Variable gray_img : Image.
Variables last_cx last_cy : Z.

Local Open Scope scan_scope.

Definition img_w : Z := width gray_img.
Definition img_h : Z := height gray_img.
Definition img_cx : Q := (QofZ img_w / 2)%Q.
Definition img_cy : Q := (QofZ img_h / 2)%Q.

(** Lines 76-86: the score of a blob. *)
Definition score_of (b : Blob) : Q :=
  let bc_x := cx b in
  let bc_y := cy b in
  let dx0 := (QofZ bc_x - img_cx)%Q in
  let dy0 := (QofZ bc_y - img_cy)%Q in
  let score := (QofZ (area b) - CENTER_WEIGHT cfg * (dx0 * dx0 + dy0 * dy0))%Q in
  if truthy last_cx || truthy last_cy then
    let dx1 := bc_x - last_cx in
    let dy1 := bc_y - last_cy in
    (score - TRACK_WEIGHT cfg * QofZ (dx1 * dx1 + dy1 * dy1))%Q
  else score.

(** Lines 69-113: the body of the [try]. *)
Definition try_body (b : Blob) : M unit :=
  let '(_, _, w, h) := rect b in
  if (w <? MIN_W cfg) || (h <? MIN_H cfg) then continue_ else
  if Qgt_bool (QofZ w) (QofZ (width gray_img) * MAX_W_RATIO cfg)
     || Qgt_bool (QofZ h) (QofZ (height gray_img) * MAX_H_RATIO cfg)
  then continue_ else
  let bc_x := cx b in
  let bc_y := cy b in
  let score := score_of b in
  do fb <- gets fallback ;;
  do fbs <- gets fallback_score ;;
  do c <- is_none_or_gt fb score fbs ;;
  exec (if c then modify (set_fallback b score) else ret tt) ;;
  do aspect <- py_div w h ;;
  if Qlt_bool aspect (MIN_ASPECT cfg) || Qgt_bool aspect (MAX_ASPECT cfg)
  then continue_ else
  do density <- py_div (area b) (w * h) ;;
  if Qlt_bool density (MIN_DENSITY cfg) || Qgt_bool density (RELAX_MAX_DENSITY cfg)
  then continue_ else
  exec (if Qle_bool density (MAX_DENSITY cfg) then
          exec (if truthy (EDGE_MARGIN cfg) then
                  exec (if (bc_x <? EDGE_MARGIN cfg) || (bc_x >? img_w - EDGE_MARGIN cfg)
                        then raise ExcEdge else ret tt) ;;
                  if (bc_y <? EDGE_MARGIN cfg) || (bc_y >? img_h - EDGE_MARGIN cfg)
                  then raise ExcEdge else ret tt
                else ret tt) ;;
          do bst <- gets best ;;
          do bsc <- gets best_score ;;
          do c1 <- is_none_or_gt bst score bsc ;;
          if c1 then modify (set_best b score) else ret tt
        else ret tt) ;;
  do rl <- gets relaxed ;;
  do rls <- gets relaxed_score ;;
  do c2 <- is_none_or_gt rl score rls ;;
  if c2 then modify (set_relaxed b score) else ret tt.

(** Lines 66-115: one iteration of the [for]. *)
Definition loop_body (b : Blob) : M unit :=
  if area b >? MAX_AREA cfg then continue_ else
  try_except (try_body b) (fun _ => continue_).

(** Lines 58-115: the scan over the blobs, from fresh locals. *)
Definition evaluate (blobs : list Blob) : Locals * outcome unit :=
  for_each loop_body blobs locals0.

(** Lines 117-126: the tiered return. *)
Definition select (s : Locals) (blobs : list Blob) : Z * Z * Z * Z :=
  let len := Z.of_nat (List.length blobs) in
  match best s with
  | Some b => (cx b, cy b, len, 1)
  | None =>
      match relaxed s with
      | Some b => (cx b, cy b, len, 3)
      | None =>
          match fallback s with
          | Some b => (cx b, cy b, len, 4)
          | None => (0, 0, len, 0)
          end
      end
  end.

(** The whole function; [blobs] is what [find_blobs] returned.  A raise that
    escaped the loop would escape the function. *)
Definition find_white_frame_center (blobs : list Blob) : exn + Z * Z * Z * Z :=
  match blobs with
  | [] => inr (0, 0, 0, 0)
  | _ =>
      match evaluate blobs with
      | (_, Raise e) => inl e
      | (s, _) => inr (select s blobs)
      end
  end.

End Scan.

(** ** The scan, read off as gates and tiers *)

Section Tiers.
Variable cfg : Config.
Variable gray_img : Image.
Variables last_cx last_cy : Z.

Abbreviation score := (score_of cfg gray_img last_cx last_cy).

(** Steps 1-3, as the three rejecting [if]s test them. *)
Definition pass_gates (b : Blob) : bool :=
  negb (area b >? MAX_AREA cfg)
  && negb ((rect_w b <? MIN_W cfg) || (rect_h b <? MIN_H cfg))
  && negb (Qgt_bool (QofZ (rect_w b)) (QofZ (width gray_img) * MAX_W_RATIO cfg)
           || Qgt_bool (QofZ (rect_h b)) (QofZ (height gray_img) * MAX_H_RATIO cfg)).

Definition aspect_of (b : Blob) : Q := (QofZ (rect_w b) / QofZ (rect_h b))%Q.
Definition density_of (b : Blob) : Q := (QofZ (area b) / QofZ (rect_w b * rect_h b))%Q.

Definition aspect_ok (b : Blob) : bool :=
  negb (Qlt_bool (aspect_of b) (MIN_ASPECT cfg) || Qgt_bool (aspect_of b) (MAX_ASPECT cfg)).

Definition density_ok (b : Blob) : bool :=
  negb (Qlt_bool (density_of b) (MIN_DENSITY cfg)
        || Qgt_bool (density_of b) (RELAX_MAX_DENSITY cfg)).

Definition density_strict (b : Blob) : bool := Qle_bool (density_of b) (MAX_DENSITY cfg).

(** The centroid fails the edge check of lines 101-105. *)
Definition edge_hit (b : Blob) : bool :=
  truthy (EDGE_MARGIN cfg)
  && (((cx b <? EDGE_MARGIN cfg) || (cx b >? img_w gray_img - EDGE_MARGIN cfg))
      || ((cy b <? EDGE_MARGIN cfg) || (cy b >? img_h gray_img - EDGE_MARGIN cfg))).

(** The blob gets as far as line 100. *)
Definition reaches_tiers (b : Blob) : bool :=
  pass_gates b
  && negb (rect_h b =? 0) && aspect_ok b
  && negb (rect_w b * rect_h b =? 0) && density_ok b.

Definition fallback_elig (b : Blob) : bool := pass_gates b.
Definition strict_elig (b : Blob) : bool :=
  reaches_tiers b && density_strict b && negb (edge_hit b).
Definition relaxed_elig (b : Blob) : bool :=
  reaches_tiers b && negb (density_strict b && edge_hit b).

(** The exception the [try] body raises on [b], if any (given locals whose
    score slots are filled together with their blob slots). *)
Definition fault_of (b : Blob) : option exn :=
  if negb (pass_gates b) then None else
  if rect_h b =? 0 then Some ZeroDivisionError else
  if negb (aspect_ok b) then None else
  if rect_w b * rect_h b =? 0 then Some ZeroDivisionError else
  if negb (density_ok b) then None else
  if density_strict b && edge_hit b then Some ExcEdge else None.

(** [slot is None or score > slot_score] then assign, as one update. *)
Definition keep (slot : option Blob) (b : Blob) : option Blob :=
  match slot with
  | None => Some b
  | Some a => if Qgt_bool (score b) (score a) then Some b else Some a
  end.

(** The running best over a list of candidates, scanned left to right. *)
Definition pick (l : list Blob) : option Blob := fold_left keep l None.

(** Locals in which every score slot holds the score of its blob slot. *)
Definition wf (s : Locals) : Prop :=
  best_score s = option_map score (best s)
  /\ relaxed_score s = option_map score (relaxed s)
  /\ fallback_score s = option_map score (fallback s).

Definition with_scores (a r f : option Blob) : Locals :=
  mkLocals a (option_map score a) r (option_map score r) f (option_map score f).

(** One iteration, as its effect on the three slots. *)
Definition step (s : Locals) (b : Blob) : Locals :=
  with_scores
    (if strict_elig b then keep (best s) b else best s)
    (if relaxed_elig b then keep (relaxed s) b else relaxed s)
    (if fallback_elig b then keep (fallback s) b else fallback s).

End Tiers.

(** Steps 1-3 in the words of the algorithm description: the blob is not
    over the area cap, not under the minimum box, not over the frame ratios. *)
Definition passes_steps_1_3 (cfg : Config) (gray_img : Image) (b : Blob) : Prop :=
  area b <= MAX_AREA cfg
  /\ rect_w b >= MIN_W cfg
  /\ rect_h b >= MIN_H cfg
  /\ (QofZ (rect_w b) <= QofZ (width gray_img) * MAX_W_RATIO cfg)%Q
  /\ (QofZ (rect_h b) <= QofZ (height gray_img) * MAX_H_RATIO cfg)%Q.

(** Squared distances of a centroid from the frame centre and from a prior fix. *)
Definition center_dist2 (gray_img : Image) (b : Blob) : Q :=
  ((QofZ (cx b) - QofZ (width gray_img) / 2) * (QofZ (cx b) - QofZ (width gray_img) / 2)
   + (QofZ (cy b) - QofZ (height gray_img) / 2) * (QofZ (cy b) - QofZ (height gray_img) / 2))%Q.

Definition track_dist2 (lx ly : Z) (b : Blob) : Z :=
  (cx b - lx) * (cx b - lx) + (cy b - ly) * (cy b - ly).

(** The centroid lies within the margin of some frame edge. *)
Definition near_edge (cfg : Config) (gray_img : Image) (b : Blob) : Prop :=
  cx b < EDGE_MARGIN cfg \/ cx b > width gray_img - EDGE_MARGIN cfg
  \/ cy b < EDGE_MARGIN cfg \/ cy b > height gray_img - EDGE_MARGIN cfg.

(** What it means for a slot to rank by the score within a tier: the slot is
    empty exactly when the tier admits no blob of the frame; otherwise it
    holds a blob of the frame the tier admits, that blob passed steps 1-3,
    no admitted blob of the frame scores higher, and the score slot holds
    that blob's score. *)
Definition ranked_by_score (cfg : Config) (gray_img : Image) (lx ly : Z)
           (elig : Blob -> bool) (l : list Blob)
           (slot : option Blob) (slot_score : option Q) : Prop :=
  slot_score = option_map (score_of cfg gray_img lx ly) slot
  /\ (slot = None <-> forall x, In x l -> elig x = false)
  /\ (forall m, slot = Some m ->
        In m l /\ elig m = true /\ passes_steps_1_3 cfg gray_img m
        /\ forall x, In x l -> elig x = true ->
             (score_of cfg gray_img lx ly x <= score_of cfg gray_img lx ly m)%Q).

(** ** The serial link *)

Definition UART_PORT : string := "/dev/ttyS0".
Definition UART_BAUD : Z := 115200.
Definition UART_LINE_ENDING : string := String (ascii_of_nat 10) EmptyString.

(** A [uart.UART] object. *)
Record UART := mkUART { uart_port : string; uart_baud : Z }.

(** What the driver was asked to do, and whether it did it. *)
Inductive io_event :=
| EvOpen (port : string) (baud : Z) (ok : bool)
| EvWrite (data : string) (ok : bool).

(** The world outside the script: how the driver answers its n-th open and its
    n-th write.  The log of past calls is the script's only I/O state. *)
Record Driver := mkDriver { open_ok : nat -> bool; write_ok : nat -> bool }.

Definition World : Type := list io_event.

Definition is_open (e : io_event) : bool :=
  match e with EvOpen _ _ _ => true | EvWrite _ _ => false end.
Definition is_write (e : io_event) : bool :=
  match e with EvOpen _ _ _ => false | EvWrite _ _ => true end.

Definition opens (w : World) : nat := List.length (filter is_open w).
Definition writes (w : World) : nat := List.length (filter is_write w).

Definition str (z : Z) : string := NilZero.string_of_int (Z.to_int z).

Section Link.
Variable drv : Driver.

(** [uart.UART(port, baud)]: an object, or an exception. *)
Definition uart_UART (port : string) (baud : Z) (w : World) : World * (exn + UART) :=
  if open_ok drv (opens w)
  then (w ++ [EvOpen port baud true], inr (mkUART port baud))
  else (w ++ [EvOpen port baud false], inl ExcIO).

(** [serial.write(data)]. *)
Definition uart_write (u : UART) (data : string) (w : World) : World * (exn + unit) :=
  if write_ok drv (writes w)
  then (w ++ [EvWrite data true], inr tt)
  else (w ++ [EvWrite data false], inl ExcIO).

(** Lines 36-42.  The failure message goes to the console, which is not
    modelled. *)
Definition init_uart (w : World) : World * option UART :=
  match uart_UART UART_PORT UART_BAUD w with
  | (w', inr u) => (w', Some u)
  | (w', inl _) => (w', None)
  end.

(** Lines 128-137.  A UART object is truthy, [None] is not. *)
Definition send_coord (serial : option UART) (cx cy : Z) (w : World)
  : World * (option UART * Z) :=
  match serial with
  | None => (w, (None, 0))
  | Some u =>
      match uart_write u (str cx ++ "," ++ str cy ++ UART_LINE_ENDING)%string w with
      | (w', inr _) => (w', (Some u, 1))
      | (w', inl _) => (w', (None, 0))
      end
  end.

End Link.

(** ** The frame loop *)

(** The variables that live across iterations of the [while]. *)
Record Session := mkSession {
  last_cx : Z;
  last_cy : Z;
  tx_count : Z;
  last_tx_ok : Z;
  serial : option UART
}.

(** What one pass of capture, conversion and [find_blobs] hands to the core. *)
Record Frame := mkFrame { gray : Image; blobs : list Blob }.

(** What the iteration computed for display: centroid, blob count, tag. *)
Record Report := mkReport { r_cx : Z; r_cy : Z; blob_cnt : Z; out_valid : Z }.

Section Loop.
Variable cfg : Config.
Variable drv : Driver.

(** Lines 168-176: the centroid sent out, the tag, and the new anchor. *)
Definition track (st : Session) (res : Z * Z * Z * Z) : Report * (Z * Z) :=
  let '(cx, cy, blob_cnt, valid) := res in
  let out_valid := valid in
  let '(cx, cy, out_valid) :=
    if negb (truthy valid) then (0, 0, 0) else (cx, cy, out_valid) in
  let anchor :=
    if truthy cx && truthy cy && truthy out_valid
    then (cx, cy) else (last_cx st, last_cy st) in
  (mkReport cx cy blob_cnt out_valid, anchor).

(** Lines 161-183: one iteration of the [while], display left out. *)
Definition iteration (fr : Frame) (st : Session) (w : World)
  : exn + (Session * Report * World) :=
  match find_white_frame_center cfg (gray fr) (last_cx st) (last_cy st) (blobs fr) with
  | inl e => inl e
  | inr res =>
      let '(rep, (lx, ly)) := track st res in
      let '(w1, (serial1, ok)) := send_coord drv (serial st) (r_cx rep) (r_cy rep) w in
      let tx := if truthy ok then tx_count st + 1 else tx_count st in
      let '(w2, serial2) :=
        match serial1 with
        | None => init_uart drv w1
        | Some _ => (w1, serial1)
        end in
      inr (mkSession lx ly tx ok serial2, rep, w2)
  end.

(** Lines 145-157: the session the loop starts from. *)
Definition startup (w : World) : Session * World :=
  let '(w', serial0) := init_uart drv w in
  (mkSession 0 0 0 0 serial0, w').

(** The [while] over the frames captured until exit is requested. *)
Fixpoint run (frames : list Frame) (st : Session) (w : World)
  : exn + (Session * World) :=
  match frames with
  | [] => inr (st, w)
  | fr :: rest =>
      match iteration fr st w with
      | inl e => inl e
      | inr (st', _, w') => run rest st' w'
      end
  end.

End Loop.

(** ** Sample frames *)

Definition frame240 : Image := mkImage IMG_WIDTH IMG_HEIGHT.

(** A thin-bordered rectangle in the middle of the frame. *)
Definition hollow_blob : Blob := mkBlob 400 90 100 60 40 120 120.

(** The near-solid blob of the worked scenario: area 500 in a 30x15 box. *)
Definition solid_blob : Blob := mkBlob 500 40 40 30 15 55 47.

(** A blob over the area cap. *)
Definition huge_blob : Blob := mkBlob 20000 20 20 150 150 95 95.

(** A thin-bordered rectangle hugging the left edge. *)
Definition edge_blob : Blob := mkBlob 200 0 50 30 20 5 60.

(** The same box, half filled. *)
Definition dense_edge_blob : Blob := mkBlob 300 0 50 30 20 5 60.

(** A degenerate blob with a zero-height box. *)
Definition flat_blob : Blob := mkBlob 100 10 1 30 0 25 1.

(** Two equal blobs placed symmetrically about the frame centre. *)
Definition left_blob : Blob := mkBlob 400 70 100 60 40 100 120.
Definition right_blob : Blob := mkBlob 400 110 100 60 40 140 120.

Definition with_edge_margin (cfg : Config) (m : Z) : Config :=
  mkConfig (MIN_AREA cfg) (MAX_AREA cfg) (MIN_W cfg) (MIN_H cfg)
    (MAX_W_RATIO cfg) (MAX_H_RATIO cfg) (MIN_ASPECT cfg) (MAX_ASPECT cfg)
    (MIN_DENSITY cfg) (MAX_DENSITY cfg) (RELAX_MAX_DENSITY cfg)
    (CENTER_WEIGHT cfg) (TRACK_WEIGHT cfg) m.

(** A blob as far from the origin as the frame centre is, but off centre. *)
Definition corner_blob : Blob := mkBlob 400 0 150 60 40 24 168.

(** A thin-bordered rectangle reported with its centroid on the x = 0 line. *)
Definition axis_blob : Blob := mkBlob 400 0 100 60 40 0 120.

(** A driver that always works, one whose first open fails, and one that
    opens the port but refuses every write. *)
Definition steady : Driver := mkDriver (fun _ => true) (fun _ => true).
Definition late : Driver := mkDriver (fun n => Nat.ltb 0 n) (fun _ => true).
Definition deaf : Driver := mkDriver (fun _ => true) (fun _ => false).

(** The session before the first frame when the port could not be opened. *)
Definition cold : Session := mkSession 0 0 0 0 None.

(** The session before the first frame with the port open. *)
Definition linked : Session := mkSession 0 0 0 0 (Some (mkUART UART_PORT UART_BAUD)).

(** A session that holds a fix at the frame centre and an open port. *)
Definition warm : Session := mkSession 120 120 0 0 (Some (mkUART UART_PORT UART_BAUD)).

(** ** What is sent and what is shown *)

(** The line written for a centroid (line 133). *)
Definition wire_line (x y : Z) : string :=
  (str x ++ "," ++ str y ++ UART_LINE_ENDING)%string.

(** Occurrence of a character in a string. *)
Fixpoint has_char (c : ascii) (s : string) : bool :=
  match s with
  | EmptyString => false
  | String a r => Ascii.eqb a c || has_char c r
  end.

Definition is_ok_write (e : io_event) : bool :=
  match e with EvWrite _ ok => ok | EvOpen _ _ _ => false end.

(** Writes the driver accepted. *)
Definition ok_writes (w : World) : nat := List.length (filter is_ok_write w).

(** What the iteration draws on the binary image before showing it. *)
Inductive draw_cmd :=
| DrawCross (x y size : Z)
| DrawString (x y : Z) (text : string).

(** Line 191. *)
Definition uart_state (st : Session) : Z :=
  match serial st with Some _ => 1 | None => 0 end.

(** Line 192, with the session as the iteration leaves it. *)
Definition status (rep : Report) (st : Session) : string :=
  ("Target: (" ++ str (r_cx rep) ++ "," ++ str (r_cy rep) ++ ") | PORT:" ++ UART_PORT
   ++ " UART_OK:" ++ str (uart_state st) ++ " TX:" ++ str (tx_count st)
   ++ " OK:" ++ str (last_tx_ok st) ++ " | Blobs:" ++ str (blob_cnt rep)
   ++ " | ok:" ++ str (out_valid rep))%string.

(** Lines 186-193: the cross and its label when both coordinates are
    truthy, then the status text.  Colours are constant and left out. *)
Definition overlay (rep : Report) (st : Session) : list draw_cmd :=
  (if truthy (r_cx rep) && truthy (r_cy rep)
   then [DrawCross (r_cx rep) (r_cy rep) 10;
         DrawString (r_cx rep + 15) (r_cy rep - 10)
           ("(" ++ str (r_cx rep) ++ "," ++ str (r_cy rep) ++ ")")%string]
   else [])
  ++ [DrawString 5 5 (status rep st)].

(** ** Tiers in terms of the blob set *)

(** The tag a frame gets, from which tiers admit one of its blobs. *)
Definition tag_of (cfg : Config) (gray_img : Image) (l : list Blob) : Z :=
  if existsb (strict_elig cfg gray_img) l then 1
  else if existsb (relaxed_elig cfg gray_img) l then 3
  else if existsb (fallback_elig cfg gray_img) l then 4
  else 0.

(** The aspect and density bands, on the box and area of a blob. *)
Definition in_aspect_band (cfg : Config) (b : Blob) : Prop :=
  (MIN_ASPECT cfg <= aspect_of b <= MAX_ASPECT cfg)%Q.

Definition in_relaxed_band (cfg : Config) (b : Blob) : Prop :=
  (MIN_DENSITY cfg <= density_of b <= RELAX_MAX_DENSITY cfg)%Q.

(** What the relaxed and the strict tier ask of a blob when nothing can
    raise and no edge margin is set. *)
Definition relaxed_candidate (cfg : Config) (gray_img : Image) (b : Blob) : Prop :=
  passes_steps_1_3 cfg gray_img b /\ in_aspect_band cfg b /\ in_relaxed_band cfg b.

Definition strict_candidate (cfg : Config) (gray_img : Image) (b : Blob) : Prop :=
  relaxed_candidate cfg gray_img b /\ (density_of b <= MAX_DENSITY cfg)%Q.

(** A configuration under which the [try] body has nothing to raise on. *)
Definition plain_config (cfg : Config) : Prop :=
  MIN_W cfg > 0 /\ MIN_H cfg > 0 /\ EDGE_MARGIN cfg = 0.

(** The anchor is either unset or has both coordinates set. *)
Definition anchor_ok (st : Session) : Prop :=
  (last_cx st = 0 /\ last_cy st = 0) \/ (last_cx st <> 0 /\ last_cy st <> 0).

(** ** Correctness of the reading *)

Section ScanFacts.
Variable cfg : Config.
Variable gray_img : Image.
Variables last_cx last_cy : Z.

Abbreviation score := (score_of cfg gray_img last_cx last_cy).
Abbreviation body := (loop_body cfg gray_img last_cx last_cy).
Abbreviation stepf := (step cfg gray_img last_cx last_cy).
Abbreviation wfs := (wf cfg gray_img last_cx last_cy).

Lemma wf_locals0 : wfs locals0.
Proof. repeat split. Qed.

Lemma wf_with_scores a r f :
  wfs (with_scores cfg gray_img last_cx last_cy a r f).
Proof. repeat split. Qed.

Lemma wf_step s b : wfs (stepf s b).
Proof. apply wf_with_scores. Qed.

Lemma wf_shape s :
  wfs s ->
  s = with_scores cfg gray_img last_cx last_cy (best s) (relaxed s) (fallback s).
Proof.
  destruct s as [a sa r sr f sf]; unfold wf, with_scores; simpl.
  intros (-> & -> & ->); reflexivity.
Qed.

(** The [try] body on well-formed locals: where it stops and what it leaves. *)
Lemma try_body_run s b :
  wfs s ->
  (area b >? MAX_AREA cfg) = false ->
  fst (try_body cfg gray_img last_cx last_cy b s) = stepf s b
  /\ match snd (try_body cfg gray_img last_cx last_cy b s) with
     | Raise e => fault_of cfg gray_img b = Some e
     | _ => fault_of cfg gray_img b = None
     end.
Proof.
  intros Hwf Ha. rewrite (wf_shape s Hwf).
  generalize (best s) (relaxed s) (fallback s); intros a r f.
  unfold try_body, step, strict_elig, relaxed_elig, fallback_elig, fault_of,
    reaches_tiers, pass_gates, aspect_ok, density_ok, density_strict, edge_hit,
    rect, with_scores, py_div, img_w, img_h.
  rewrite Ha. cbn [negb andb].
  fold (aspect_of b). fold (density_of b).
  destruct ((rect_w b <? MIN_W cfg) || (rect_h b <? MIN_H cfg)); cbn; [split; reflexivity|].
  destruct (Qgt_bool (QofZ (rect_w b)) (QofZ (width gray_img) * MAX_W_RATIO cfg)
            || Qgt_bool (QofZ (rect_h b)) (QofZ (height gray_img) * MAX_H_RATIO cfg));
    cbn; [split; reflexivity|].
  set (cm := truthy (EDGE_MARGIN cfg)).
  set (ex := (cx b <? EDGE_MARGIN cfg) || (cx b >? width gray_img - EDGE_MARGIN cfg)).
  set (ey := (cy b <? EDGE_MARGIN cfg) || (cy b >? height gray_img - EDGE_MARGIN cfg)).
  clearbody cm ex ey.
  destruct f as [fb|]; [destruct (Qgt_bool (score b) (score fb)) eqn:Ef|];
    cbn; try rewrite Ef; cbn.
  all: destruct (rect_h b =? 0); cbn; [split; reflexivity|].
  all: destruct (Qlt_bool (aspect_of b) (MIN_ASPECT cfg)
                 || Qgt_bool (aspect_of b) (MAX_ASPECT cfg)); cbn; [split; reflexivity|].
  all: destruct (rect_w b * rect_h b =? 0); cbn; [split; reflexivity|].
  all: destruct (Qlt_bool (density_of b) (MIN_DENSITY cfg)
                 || Qgt_bool (density_of b) (RELAX_MAX_DENSITY cfg)); cbn;
    [split; reflexivity|].
  all: destruct (Qle_bool (density_of b) (MAX_DENSITY cfg)), cm, ex, ey; cbn;
    try (split; reflexivity).
  all: destruct a as [ab|]; [destruct (Qgt_bool (score b) (score ab)) eqn:Eb|];
    cbn; try rewrite Eb; cbn.
  all: destruct r as [rb|]; [destruct (Qgt_bool (score b) (score rb)) eqn:Er|];
    cbn; try rewrite Er; cbn.
  all: unfold bind, gets, modify, ret, is_none_or_gt, py_gt, set_best, set_relaxed,
         set_fallback; cbn;
       try rewrite Eb; cbn; try rewrite Er; cbn.
  all: split; reflexivity.
Qed.


(** One iteration never lets an exception out, and acts as [step]. *)
Lemma loop_body_run s b :
  wfs s ->
  fst (body b s) = stepf s b /\ forall e, snd (body b s) <> Raise e.
Proof.
  intros Hwf. unfold loop_body.
  destruct (area b >? MAX_AREA cfg) eqn:Ha.
  - split; [|discriminate]. cbn.
    unfold step, strict_elig, relaxed_elig, fallback_elig, reaches_tiers, pass_gates.
    rewrite Ha. cbn. apply wf_shape, Hwf.
  - destruct (try_body_run s b Hwf Ha) as [Hs Ho]. unfold try_except.
    destruct (try_body cfg gray_img last_cx last_cy b s) as [s' [[]| |e]];
      cbn in *; (split; [exact Hs | discriminate]).
Qed.

Lemma for_each_run l : forall s,
  wfs s -> for_each body l s = (fold_left stepf l s, Normal tt).
Proof.
  induction l as [|b l IH]; intros s Hwf; [reflexivity|].
  cbn [for_each fold_left].
  destruct (loop_body_run s b Hwf) as [Hs Ho].
  destruct (body b s) as [s' o]; cbn in Hs, Ho; subst s'.
  destruct o as [[]| |e]; try (apply IH, wf_step).
  exfalso; exact (Ho e eq_refl).
Qed.

Lemma evaluate_run l :
  evaluate cfg gray_img last_cx last_cy l = (fold_left stepf l locals0, Normal tt).
Proof. apply for_each_run, wf_locals0. Qed.

(** The slots after a run of iterations are running bests over the blobs
    each tier admits. *)
Lemma fold_step_best l : forall s,
  best (fold_left stepf l s)
  = fold_left (keep cfg gray_img last_cx last_cy)
      (filter (strict_elig cfg gray_img) l) (best s).
Proof.
  induction l as [|b l IH]; intros s; [reflexivity|].
  cbn [fold_left filter]. rewrite IH. cbn [step with_scores best].
  destruct (strict_elig cfg gray_img b); reflexivity.
Qed.

Lemma fold_step_relaxed l : forall s,
  relaxed (fold_left stepf l s)
  = fold_left (keep cfg gray_img last_cx last_cy)
      (filter (relaxed_elig cfg gray_img) l) (relaxed s).
Proof.
  induction l as [|b l IH]; intros s; [reflexivity|].
  cbn [fold_left filter]. rewrite IH. cbn [step with_scores relaxed].
  destruct (relaxed_elig cfg gray_img b); reflexivity.
Qed.

Lemma fold_step_fallback l : forall s,
  fallback (fold_left stepf l s)
  = fold_left (keep cfg gray_img last_cx last_cy)
      (filter (fallback_elig cfg gray_img) l) (fallback s).
Proof.
  induction l as [|b l IH]; intros s; [reflexivity|].
  cbn [fold_left filter]. rewrite IH. cbn [step with_scores fallback].
  destruct (fallback_elig cfg gray_img b); reflexivity.
Qed.

Lemma fold_step_wf l s : wfs s -> wfs (fold_left stepf l s).
Proof.
  revert s; induction l as [|b l IH]; intros s H; [exact H|].
  cbn [fold_left]. apply IH, wf_step.
Qed.

Abbreviation keepf := (keep cfg gray_img last_cx last_cy).
Abbreviation pickf := (pick cfg gray_img last_cx last_cy).

Lemma Qgt_bool_true x y : Qgt_bool x y = true <-> (y < x)%Q.
Proof.
  unfold Qgt_bool, Qlt_bool. rewrite negb_true_iff.
  split; intros H.
  - apply Qnot_le_lt. intros Hle. apply Qle_bool_iff in Hle. congruence.
  - destruct (Qle_bool x y) eqn:E; [|reflexivity].
    apply Qle_bool_iff in E. exfalso. exact (Qlt_not_le _ _ H E).
Qed.

Lemma Qgt_bool_false x y : Qgt_bool x y = false <-> (x <= y)%Q.
Proof.
  unfold Qgt_bool, Qlt_bool. rewrite negb_false_iff. apply Qle_bool_iff.
Qed.

Lemma fold_keep_some l : forall a, exists m, fold_left keepf l (Some a) = Some m.
Proof.
  induction l as [|b l IH]; intros a; [exists a; reflexivity|].
  cbn [fold_left keep]. destruct (Qgt_bool (score b) (score a)); apply IH.
Qed.

Lemma fold_keep_in l : forall o m,
  fold_left keepf l o = Some m -> o = Some m \/ In m l.
Proof.
  induction l as [|b l IH]; intros o m H; [left; exact H|].
  cbn [fold_left] in H. apply IH in H. destruct H as [H|H]; [|right; right; exact H].
  destruct o as [a|]; cbn in H.
  - destruct (Qgt_bool (score b) (score a)); inversion H; subst; auto.
    right; left; reflexivity.
  - inversion H; subst. right; left; reflexivity.
Qed.

Lemma fold_keep_max l : forall o m,
  fold_left keepf l o = Some m ->
  (forall a, o = Some a -> (score a <= score m)%Q)
  /\ (forall x, In x l -> (score x <= score m)%Q).
Proof.
  induction l as [|b l IH]; intros o m H.
  - cbn in H. split; [|intros x []].
    intros a Ha. rewrite Ha in H. inversion H. apply Qle_refl.
  - cbn [fold_left] in H. destruct (IH _ _ H) as [Hk Hl].
    assert (Hb : (score b <= score m)%Q /\ forall a, o = Some a -> (score a <= score m)%Q).
    { destruct o as [a|]; cbn in Hk.
      - destruct (Qgt_bool (score b) (score a)) eqn:E.
        + apply Qgt_bool_true in E. pose proof (Hk b eq_refl) as Hbm.
          split; [exact Hbm|]. intros a' Ha'; inversion Ha'; subst a'.
          apply Qle_trans with (score b); [apply Qlt_le_weak, E | exact Hbm].
        + apply Qgt_bool_false in E. pose proof (Hk a eq_refl) as Ham.
          split; [apply Qle_trans with (score a); assumption|].
          intros a' Ha'; inversion Ha'; subst a'. exact Ham.
      - split; [apply (Hk b eq_refl) | discriminate]. }
    destruct Hb as [Hb Ho]. split; [exact Ho|].
    intros x [<-|Hx]; [exact Hb | exact (Hl x Hx)].
Qed.

Lemma pick_nonempty b l : exists m, pickf (b :: l) = Some m.
Proof. unfold pick. cbn [fold_left keep]. apply fold_keep_some. Qed.

Lemma pick_in l m : pickf l = Some m -> In m l.
Proof. intros H. apply fold_keep_in in H. destruct H as [H|H]; [discriminate|exact H]. Qed.

Lemma pick_max l m x : pickf l = Some m -> In x l -> (score x <= score m)%Q.
Proof. intros H. apply fold_keep_max in H. apply H. Qed.

(** The scan as a whole: it ends normally, and each slot holds the running
    best of the blobs its tier admits, with that blob's score beside it. *)
Lemma evaluate_tiers l :
  exists s,
    evaluate cfg gray_img last_cx last_cy l = (s, Normal tt)
    /\ wfs s
    /\ best s = pickf (filter (strict_elig cfg gray_img) l)
    /\ relaxed s = pickf (filter (relaxed_elig cfg gray_img) l)
    /\ fallback s = pickf (filter (fallback_elig cfg gray_img) l).
Proof.
  exists (fold_left stepf l locals0). split; [apply evaluate_run|].
  split; [apply fold_step_wf, wf_locals0|].
  rewrite fold_step_best, fold_step_relaxed, fold_step_fallback. repeat split.
Qed.

End ScanFacts.

(** ** Gates and the selector *)

Section SelectorFacts.
Variable cfg : Config.
Variable gray_img : Image.
Variables lx ly : Z.

Abbreviation fwfc := (find_white_frame_center cfg gray_img lx ly).
Abbreviation eval := (evaluate cfg gray_img lx ly).

(** The three rejecting tests let a blob through exactly when it meets the
    bounds of steps 1-3. *)
Lemma pass_gates_iff b :
  pass_gates cfg gray_img b = true <-> passes_steps_1_3 cfg gray_img b.
Proof.
  unfold pass_gates, passes_steps_1_3.
  rewrite !andb_true_iff, !negb_true_iff, !orb_false_iff, !Qgt_bool_false.
  rewrite Z.gtb_ltb, !Z.ltb_ge. intuition lia.
Qed.

Lemma fst_eval l :
  fst (eval l) = fold_left (step cfg gray_img lx ly) l locals0.
Proof. rewrite evaluate_run. reflexivity. Qed.

(** The function never raises, and returns what the tiered return makes of
    the locals the scan ends with. *)
Lemma fwfc_run l : fwfc l = inr (select (fst (eval l)) l).
Proof.
  unfold find_white_frame_center. destruct l as [|b l]; [reflexivity|].
  rewrite evaluate_run. reflexivity.
Qed.

Lemma fallback_eval l :
  fallback (fst (eval l))
  = pick cfg gray_img lx ly (filter (fallback_elig cfg gray_img) l).
Proof. rewrite fst_eval. apply fold_step_fallback. Qed.

Lemma best_eval l :
  best (fst (eval l)) = pick cfg gray_img lx ly (filter (strict_elig cfg gray_img) l).
Proof. rewrite fst_eval. apply fold_step_best. Qed.

Lemma relaxed_eval l :
  relaxed (fst (eval l))
  = pick cfg gray_img lx ly (filter (relaxed_elig cfg gray_img) l).
Proof. rewrite fst_eval. apply fold_step_relaxed. Qed.

Lemma strict_elig_gates b :
  strict_elig cfg gray_img b = true -> pass_gates cfg gray_img b = true.
Proof.
  unfold strict_elig, reaches_tiers. rewrite !andb_true_iff. tauto.
Qed.

Lemma relaxed_elig_gates b :
  relaxed_elig cfg gray_img b = true -> pass_gates cfg gray_img b = true.
Proof.
  unfold relaxed_elig, reaches_tiers. rewrite !andb_true_iff. tauto.
Qed.

Lemma filter_none (f : Blob -> bool) l :
  (forall b, In b l -> f b = false) -> filter f l = [].
Proof.
  induction l as [|a l IH]; intros H; [reflexivity|].
  cbn. rewrite (H a (or_introl eq_refl)). apply IH. intros b Hb. apply H. right; exact Hb.
Qed.

(** C3. Whenever some blob of the frame passes the gates of steps 1-3, the
    scan ends with a fallback-tier best (itself a blob of the frame passing
    those gates), and the function's tag is not the "none" tag. *)
Theorem fallback_never_empty l :
  (exists b, In b l /\ passes_steps_1_3 cfg gray_img b) ->
  (exists fb, fallback (fst (eval l)) = Some fb
              /\ In fb l /\ passes_steps_1_3 cfg gray_img fb)
  /\ (exists x y t, fwfc l = inr (x, y, Z.of_nat (List.length l), tier_code t)
                    /\ t <> TierNone).
Proof.
  intros (b & Hin & Hb). apply pass_gates_iff in Hb.
  assert (Hf : In b (filter (fallback_elig cfg gray_img) l))
    by (apply filter_In; split; assumption).
  assert (Hfb : exists fb, fallback (fst (eval l)) = Some fb).
  { rewrite fallback_eval.
    destruct (filter (fallback_elig cfg gray_img) l) as [|c r]; [destruct Hf|].
    apply pick_nonempty. }
  destruct Hfb as [fb Hfb]. split.
  - exists fb. split; [exact Hfb|]. rewrite fallback_eval in Hfb.
    apply pick_in, filter_In in Hfb. destruct Hfb as [H1 H2].
    split; [exact H1 | apply pass_gates_iff; exact H2].
  - rewrite fwfc_run. unfold select.
    destruct (best (fst (eval l))) as [a|].
    + exists (cx a), (cy a), TierAccepted. split; [reflexivity | discriminate].
    + destruct (relaxed (fst (eval l))) as [r|].
      * exists (cx r), (cy r), TierRelaxed. split; [reflexivity | discriminate].
      * rewrite Hfb. exists (cx fb), (cy fb), TierFallback.
        split; [reflexivity | discriminate].
Qed.

(** C4. The function returns the centroid and tag of the first non-empty
    slot in the order strict, relaxed, fallback, and the "none" result when
    all three are empty, always with the number of blobs of the frame; so a
    non-empty strict slot always gives the accepted tag. *)
Theorem select_order l :
  let s := fst (eval l) in
  let n := Z.of_nat (List.length l) in
  (forall b, best s = Some b ->
     fwfc l = inr (cx b, cy b, n, tier_code TierAccepted))
  /\ (forall b, best s = None -> relaxed s = Some b ->
     fwfc l = inr (cx b, cy b, n, tier_code TierRelaxed))
  /\ (forall b, best s = None -> relaxed s = None -> fallback s = Some b ->
     fwfc l = inr (cx b, cy b, n, tier_code TierFallback))
  /\ (best s = None -> relaxed s = None -> fallback s = None ->
     fwfc l = inr (0, 0, n, tier_code TierNone)).
Proof.
  cbv zeta. rewrite fwfc_run. unfold select.
  repeat split; intros; repeat match goal with H : _ = _ |- _ => rewrite H end; reflexivity.
Qed.

(** C7. When no blob of the frame passes the gates of steps 1-3 the function
    returns centroid (0,0) with the "none" tag and the frame's blob count;
    for a frame without blobs that count is 0. *)
Theorem none_when_no_gate_passes l :
  (forall b, In b l -> ~ passes_steps_1_3 cfg gray_img b) ->
  fwfc l = inr (0, 0, Z.of_nat (List.length l), tier_code TierNone)
  /\ (l = [] -> fwfc l = inr (0, 0, 0, 0)).
Proof.
  intros H.
  assert (Hg : forall b, In b l -> pass_gates cfg gray_img b = false).
  { intros b Hb. destruct (pass_gates cfg gray_img b) eqn:E; [|reflexivity].
    exfalso. apply (H b Hb), pass_gates_iff, E. }
  split; [|intros ->; reflexivity].
  rewrite fwfc_run. unfold select.
  rewrite best_eval, relaxed_eval, fallback_eval.
  rewrite (filter_none (fallback_elig cfg gray_img) l Hg).
  rewrite (filter_none (strict_elig cfg gray_img) l), (filter_none (relaxed_elig cfg gray_img) l).
  - reflexivity.
  - intros b Hb. destruct (relaxed_elig cfg gray_img b) eqn:E; [|reflexivity].
    apply relaxed_elig_gates in E. rewrite (Hg b Hb) in E. discriminate.
  - intros b Hb. destruct (strict_elig cfg gray_img b) eqn:E; [|reflexivity].
    apply strict_elig_gates in E. rewrite (Hg b Hb) in E. discriminate.
Qed.

End SelectorFacts.

(** ** The score *)

Section ScoreFacts.
Variable cfg : Config.
Variable gray_img : Image.
Variables lx ly : Z.

Abbreviation sc := (score_of cfg gray_img lx ly).

Lemma truthy_or_true : truthy lx || truthy ly = true <-> (lx <> 0 \/ ly <> 0).
Proof.
  unfold truthy. rewrite orb_true_iff, !negb_true_iff, !Z.eqb_neq. tauto.
Qed.

Lemma truthy_or_false : truthy lx || truthy ly = false <-> (lx = 0 /\ ly = 0).
Proof.
  unfold truthy. rewrite orb_false_iff, !negb_false_iff, !Z.eqb_eq. tauto.
Qed.

Lemma score_with_prior b :
  lx <> 0 \/ ly <> 0 ->
  (sc b == QofZ (area b) - CENTER_WEIGHT cfg * center_dist2 gray_img b
           - TRACK_WEIGHT cfg * QofZ (track_dist2 lx ly b))%Q.
Proof.
  intros H. apply truthy_or_true in H.
  unfold score_of, center_dist2, track_dist2, img_cx, img_cy, img_w, img_h.
  rewrite H. reflexivity.
Qed.

Lemma score_without_prior b :
  lx = 0 /\ ly = 0 ->
  (sc b == QofZ (area b) - CENTER_WEIGHT cfg * center_dist2 gray_img b)%Q.
Proof.
  intros H. apply truthy_or_false in H.
  unfold score_of, center_dist2, img_cx, img_cy, img_w, img_h.
  rewrite H. reflexivity.
Qed.

Lemma pick_ranked (elig : Blob -> bool) l :
  (forall b, elig b = true -> pass_gates cfg gray_img b = true) ->
  ranked_by_score cfg gray_img lx ly elig l
    (pick cfg gray_img lx ly (filter elig l))
    (option_map sc (pick cfg gray_img lx ly (filter elig l))).
Proof.
  intros Hsub. split; [reflexivity|]. split.
  - split.
    + intros Hn x Hx. destruct (elig x) eqn:E; [|reflexivity].
      assert (Hf : In x (filter elig l)) by (apply filter_In; auto).
      destruct (filter elig l) as [|c r]; [destruct Hf|].
      destruct (pick_nonempty cfg gray_img lx ly c r) as [m Hm]. congruence.
    + intros Hn. rewrite (filter_none elig l Hn). reflexivity.
  - intros m Hm. pose proof (pick_in _ _ _ _ _ _ Hm) as Hin.
    apply filter_In in Hin. destruct Hin as [Hin He].
    split; [exact Hin|]. split; [exact He|]. split.
    + apply pass_gates_iff, Hsub, He.
    + intros x Hx Hex. apply (pick_max _ _ _ _ _ _ _ Hm). apply filter_In; auto.
Qed.

(** C5. The score of a blob is its area minus the centre penalty, minus the
    tracking penalty exactly when a prior centroid is set; and the scan ranks
    all three tiers by that one score: each slot holds a top-scoring blob
    among those its tier admits, all of which survived steps 1-3. *)
Theorem score_is_the_ranking_key :
  (forall b,
      (lx <> 0 \/ ly <> 0 ->
       (sc b == QofZ (area b) - CENTER_WEIGHT cfg * center_dist2 gray_img b
                - TRACK_WEIGHT cfg * QofZ (track_dist2 lx ly b))%Q)
      /\ (lx = 0 /\ ly = 0 ->
          (sc b == QofZ (area b) - CENTER_WEIGHT cfg * center_dist2 gray_img b)%Q))
  /\ forall l,
       let s := fst (evaluate cfg gray_img lx ly l) in
       ranked_by_score cfg gray_img lx ly (strict_elig cfg gray_img) l
         (best s) (best_score s)
       /\ ranked_by_score cfg gray_img lx ly (relaxed_elig cfg gray_img) l
            (relaxed s) (relaxed_score s)
       /\ ranked_by_score cfg gray_img lx ly (fallback_elig cfg gray_img) l
            (fallback s) (fallback_score s).
Proof.
  split.
  - intros b. split; [apply score_with_prior | apply score_without_prior].
  - intros l s.
    destruct (evaluate_tiers cfg gray_img lx ly l) as (s' & He & (Hb & Hr & Hf) & Eb & Er & Ef).
    assert (Hs : s = s') by (unfold s; rewrite He; reflexivity).
    rewrite Hs, Hb, Hr, Hf, Eb, Er, Ef.
    split; [|split]; apply pick_ranked;
      auto using strict_elig_gates, relaxed_elig_gates.
Qed.

(** C6. Of two blobs with the same area and the same squared distance from
    the frame centre, with a positive tracking weight and a prior centroid
    set, the one strictly nearer the prior centroid scores strictly higher. *)
Theorem continuity_bias (A B : Blob) :
  area A = area B ->
  (center_dist2 gray_img A == center_dist2 gray_img B)%Q ->
  (0 < TRACK_WEIGHT cfg)%Q ->
  lx <> 0 \/ ly <> 0 ->
  track_dist2 lx ly B < track_dist2 lx ly A ->
  (sc A < sc B)%Q.
Proof.
  intros Ha Hc Hw Hp Hd.
  rewrite (score_with_prior A Hp), (score_with_prior B Hp), Ha, Hc.
  apply Qplus_lt_r, Qopp_lt_compat.
  apply Qmult_lt_l; [exact Hw|].
  unfold QofZ. rewrite <- Zlt_Qlt. exact Hd.
Qed.

End ScoreFacts.

(** ** The edge margin and faults inside the [try] *)

Section FaultFacts.
Variable cfg : Config.
Variable gray_img : Image.
Variables lx ly : Z.

Abbreviation ev := (evaluate cfg gray_img lx ly).
Abbreviation kp := (keep cfg gray_img lx ly).

Lemma eval_snoc pre b :
  fst (ev (pre ++ [b])) = step cfg gray_img lx ly (fst (ev pre)) b.
Proof. rewrite !fst_eval, fold_left_app. reflexivity. Qed.

Lemma fault_not_admitted b e :
  fault_of cfg gray_img b = Some e ->
  pass_gates cfg gray_img b = true
  /\ strict_elig cfg gray_img b = false
  /\ relaxed_elig cfg gray_img b = false.
Proof.
  unfold fault_of, strict_elig, relaxed_elig, reaches_tiers.
  destruct (pass_gates cfg gray_img b); cbn; [|discriminate].
  destruct (rect_h b =? 0); cbn; [auto|].
  destruct (aspect_ok cfg b); cbn; [|discriminate].
  destruct (rect_w b * rect_h b =? 0); cbn; [auto|].
  destruct (density_ok cfg b); cbn; [|discriminate].
  destruct (density_strict cfg b), (edge_hit cfg gray_img b); cbn;
    solve [auto | discriminate].
Qed.

Lemma near_edge_hit b :
  EDGE_MARGIN cfg > 0 -> near_edge cfg gray_img b -> edge_hit cfg gray_img b = true.
Proof.
  unfold near_edge, edge_hit, truthy, img_w, img_h. intros Hm H.
  rewrite andb_true_iff, negb_true_iff, !orb_true_iff, Z.eqb_neq.
  rewrite !Z.ltb_lt, !Z.gtb_ltb, !Z.ltb_lt. split; [lia|]. intuition lia.
Qed.

(** C2. With a positive edge margin, a blob that passes steps 1-3 and the
    aspect and relaxed-density gates and whose centroid lies within the
    margin of a frame edge never enters the strict slot and is always
    offered to the fallback slot; when its density is above the strict bound
    it is offered to the relaxed slot as well. *)
Theorem edge_margin_skips_candidate pre b :
  EDGE_MARGIN cfg > 0 ->
  near_edge cfg gray_img b ->
  passes_steps_1_3 cfg gray_img b ->
  rect_w b <> 0 -> rect_h b <> 0 ->
  aspect_ok cfg b = true ->
  density_ok cfg b = true ->
  let s0 := fst (ev pre) in
  let s1 := fst (ev (pre ++ [b])) in
  best s1 = best s0
  /\ fallback s1 = kp (fallback s0) b
  /\ (density_strict cfg b = false -> relaxed s1 = kp (relaxed s0) b).
Proof.
  intros Hm Hn Hg Hw Hh Ha Hd s0 s1. unfold s1, s0. rewrite eval_snoc.
  apply pass_gates_iff in Hg. pose proof (near_edge_hit b Hm Hn) as He.
  assert (Hh0 : (rect_h b =? 0) = false) by (apply Z.eqb_neq; exact Hh).
  assert (Hwh : (rect_w b * rect_h b =? 0) = false) by (apply Z.eqb_neq; nia).
  unfold step, with_scores, strict_elig, relaxed_elig, fallback_elig, reaches_tiers.
  cbn [best relaxed fallback].
  rewrite Hg, Hh0, Hwh, Ha, Hd, He. cbn.
  destruct (density_strict cfg b); cbn; repeat split; try reflexivity; discriminate.
Qed.

(** No exception leaves the scan or the function, whatever the constants.
    When the [try] body raises on a blob, that blob is left out of the strict
    and the relaxed slot (its offer to the fallback slot, made before the
    raise, stands), and the scan goes on with the blobs after it. *)
Lemma raise_skips_strict_and_relaxed :
  (forall l, exists s r,
      ev l = (s, Normal tt) /\ find_white_frame_center cfg gray_img lx ly l = inr r)
  /\ forall pre b post e,
      (area b >? MAX_AREA cfg) = false ->
      snd (try_body cfg gray_img lx ly b (fst (ev pre))) = Raise e ->
      let s0 := fst (ev pre) in
      let s1 := fst (ev (pre ++ [b])) in
      best s1 = best s0
      /\ relaxed s1 = relaxed s0
      /\ fallback s1 = kp (fallback s0) b
      /\ ev (pre ++ b :: post) = for_each (loop_body cfg gray_img lx ly) post s1
      /\ best (fst (ev (pre ++ b :: post))) = best (fst (ev (pre ++ post)))
      /\ relaxed (fst (ev (pre ++ b :: post))) = relaxed (fst (ev (pre ++ post))).
Proof.
  split.
  - intros l. exists (fold_left (step cfg gray_img lx ly) l locals0).
    rewrite fwfc_run. eexists. split; [apply evaluate_run | reflexivity].
  - intros pre b post e Ha Hr s0 s1.
    assert (Hwf : wf cfg gray_img lx ly (fst (ev pre))).
    { rewrite fst_eval. apply fold_step_wf, wf_locals0. }
    destruct (try_body_run cfg gray_img lx ly _ b Hwf Ha) as [_ Hf].
    rewrite Hr in Hf. apply fault_not_admitted in Hf. destruct Hf as (Hg & Hs & Hx).
    unfold s1, s0. rewrite eval_snoc.
    unfold step, with_scores, fallback_elig. cbn [best relaxed fallback].
    rewrite Hg, Hs, Hx.
    split; [reflexivity|]. split; [reflexivity|]. split; [reflexivity|]. split.
    + rewrite for_each_run by apply wf_with_scores.
      rewrite evaluate_run, fold_left_app. cbn [fold_left].
      rewrite fst_eval. unfold step, with_scores, fallback_elig.
      rewrite Hg, Hs, Hx. reflexivity.
    + rewrite !best_eval, !relaxed_eval, !filter_app. cbn [filter].
      rewrite Hs, Hx. split; reflexivity.
Qed.

End FaultFacts.

(** ** The frame loop: tracking state and the link *)

Section LoopFacts.
Variable cfg : Config.
Variable drv : Driver.

Lemma opens_open w p b ok : opens (w ++ [EvOpen p b ok]) = S (opens w).
Proof. unfold opens. rewrite filter_app, length_app. cbn. lia. Qed.

Lemma opens_write w d ok : opens (w ++ [EvWrite d ok]) = opens w.
Proof. unfold opens. rewrite filter_app, length_app. cbn. lia. Qed.

Lemma writes_open w p b ok : writes (w ++ [EvOpen p b ok]) = writes w.
Proof. unfold writes. rewrite filter_app, length_app. cbn. lia. Qed.

Lemma writes_write w d ok : writes (w ++ [EvWrite d ok]) = S (writes w).
Proof. unfold writes. rewrite filter_app, length_app. cbn. lia. Qed.

(** The tag returned is one of the four tier tags, and "none" comes with
    the zero centroid. *)
Lemma select_tier s l :
  exists x y t,
    select s l = (x, y, Z.of_nat (List.length l), tier_code t)
    /\ (t = TierNone -> x = 0 /\ y = 0).
Proof.
  unfold select.
  destruct (best s) as [a|];
    [exists (cx a), (cy a), TierAccepted; split; [reflexivity | discriminate]|].
  destruct (relaxed s) as [r|];
    [exists (cx r), (cy r), TierRelaxed; split; [reflexivity | discriminate]|].
  destruct (fallback s) as [f|];
    [exists (cx f), (cy f), TierFallback; split; [reflexivity | discriminate]|].
  exists 0, 0, TierNone. split; [reflexivity | auto].
Qed.

Lemma truthy_true n : truthy n = true <-> n <> 0.
Proof. unfold truthy. rewrite negb_true_iff. apply Z.eqb_neq. Qed.

(** The anchor the iteration leaves is the one [track] computes. *)
Lemma iteration_anchor fr st w :
  exists res st' rep w',
    find_white_frame_center cfg (gray fr) (last_cx st) (last_cy st) (blobs fr) = inr res
    /\ iteration cfg drv fr st w = inr (st', rep, w')
    /\ rep = fst (track st res)
    /\ (last_cx st', last_cy st') = snd (track st res).
Proof.
  unfold iteration. rewrite fwfc_run.
  set (res := select _ _). exists res.
  destruct (track st res) as [rep [ax ay]] eqn:Et.
  destruct (send_coord drv (serial st) (r_cx rep) (r_cy rep) w) as [w1 [s1 ok]].
  destruct s1 as [u|].
  - eexists _, _, _. repeat split.
  - destruct (init_uart drv w1) as [w2 s2]. eexists _, _, _. repeat split.
Qed.

(** C1. The stored centroid becomes the frame's selected centroid exactly
    when the frame's tier is accepted, relaxed or fallback and both
    coordinates of that centroid are nonzero; a frame whose tier is none
    leaves it as it was (and so does a zero coordinate). *)
Theorem anchor_update fr st w :
  exists x y n t st' rep w',
    find_white_frame_center cfg (gray fr) (last_cx st) (last_cy st) (blobs fr)
    = inr (x, y, n, tier_code t)
    /\ iteration cfg drv fr st w = inr (st', rep, w')
    /\ out_valid rep = tier_code t
    /\ (t <> TierNone /\ x <> 0 /\ y <> 0 -> last_cx st' = x /\ last_cy st' = y)
    /\ (t = TierNone \/ x = 0 \/ y = 0 ->
        last_cx st' = last_cx st /\ last_cy st' = last_cy st).
Proof.
  destruct (iteration_anchor fr st w) as (res & st' & rep & w' & Hf & Hi & Hrep & Ha).
  rewrite fwfc_run in Hf. injection Hf as <-.
  destruct (select_tier (fst (evaluate cfg (gray fr) (last_cx st) (last_cy st) (blobs fr)))
              (blobs fr)) as (x & y & t & Hs & Hz).
  rewrite Hs in Hrep, Ha.
  exists x, y, (Z.of_nat (List.length (blobs fr))), t, st', rep, w'.
  split; [rewrite fwfc_run, Hs; reflexivity|]. split; [exact Hi|].
  unfold track, truthy in Hrep, Ha. subst rep.
  destruct t; cbn in Ha |- *;
    destruct (Z.eqb_spec x 0), (Z.eqb_spec y 0); cbn in Ha;
    inversion Ha; intuition congruence.
Qed.

(** C10. Whatever the tier, a frame whose selected centroid has a zero
    coordinate leaves the stored centroid as it was. *)
Theorem zero_coordinate_never_anchors fr st w :
  exists x y n v st' rep w',
    find_white_frame_center cfg (gray fr) (last_cx st) (last_cy st) (blobs fr)
    = inr (x, y, n, v)
    /\ iteration cfg drv fr st w = inr (st', rep, w')
    /\ (x = 0 \/ y = 0 -> last_cx st' = last_cx st /\ last_cy st' = last_cy st).
Proof.
  destruct (iteration_anchor fr st w) as (res & st' & rep & w' & Hf & Hi & _ & Ha).
  destruct res as [[[x y] n] v].
  exists x, y, n, v, st', rep, w'. split; [exact Hf|]. split; [exact Hi|].
  unfold track, truthy in Ha.
  destruct (Z.eqb_spec v 0); cbn in Ha;
    [inversion Ha; auto|].
  destruct (Z.eqb_spec x 0), (Z.eqb_spec y 0); cbn in Ha;
    inversion Ha; intuition congruence.
Qed.

Lemma init_uart_once w :
  init_uart drv w
  = (w ++ [EvOpen UART_PORT UART_BAUD (open_ok drv (opens w))],
     if open_ok drv (opens w) then Some (mkUART UART_PORT UART_BAUD) else None).
Proof.
  unfold init_uart, uart_UART. destruct (open_ok drv (opens w)); reflexivity.
Qed.

(** What one iteration does to the link, whatever the frame. *)
Lemma iteration_link fr st w :
  exists st' rep w' w1,
    iteration cfg drv fr st w = inr (st', rep, w')
    /\ send_coord drv (serial st) (r_cx rep) (r_cy rep) w
       = (w1, (match last_tx_ok st' with 0 => None | _ => serial st end, last_tx_ok st'))
    /\ (last_tx_ok st' <> 0 -> w' = w1 /\ serial st' = serial st)
    /\ (last_tx_ok st' = 0 -> (w', serial st') = init_uart drv w1).
Proof.
  unfold iteration. rewrite fwfc_run.
  destruct (track st _) as [rep [ax ay]].
  unfold send_coord, uart_write.
  destruct (serial st) as [u|]; [destruct (write_ok drv (writes w))|];
    rewrite ?init_uart_once;
    (eexists _, _, _, _; split; [reflexivity|]); cbn [last_tx_ok serial];
    (split; [reflexivity|]);
    (split; [intros H; try congruence; split; reflexivity
            | intros H; try discriminate; rewrite init_uart_once; reflexivity]).
Qed.

(** Over any run of frames the loop never stops on an exception and opens
    the port at most once per frame. *)
Lemma run_opens_bounded frames : forall st w,
  exists st' w',
    run cfg drv frames st w = inr (st', w')
    /\ (opens w' <= opens w + List.length frames)%nat.
Proof.
  induction frames as [|fr rest IH]; intros st w.
  - exists st, w. split; [reflexivity | cbn; lia].
  - destruct (iteration_link fr st w) as (st1 & rep & w1 & wm & Hi & Hs & Hok & Hko).
    assert (Hb : (opens w1 <= S (opens w))%nat).
    { assert (Hm : opens wm = opens w).
      { revert Hs. unfold send_coord, uart_write.
        destruct (serial st); [destruct (write_ok drv (writes w))|];
          intros Hs; injection Hs as <- _ _; rewrite ?opens_write; reflexivity. }
      destruct (Z.eq_dec (last_tx_ok st1) 0) as [H0|Hn].
      - specialize (Hko H0). rewrite init_uart_once in Hko. injection Hko as -> _.
        rewrite opens_open. lia.
      - destruct (Hok Hn) as [-> _]. lia. }
    destruct (IH st1 w1) as (st' & w' & Hr & Ho).
    exists st', w'. cbn [run]. rewrite Hi. split; [exact Hr | cbn; lia].
Qed.

(** C8. A transmission through a held handle makes one write: when the
    driver accepts it the handle is returned with success, when the driver
    refuses it no handle is returned and failure is reported; without a handle
    nothing is written and failure is reported.  It never raises and never
    opens.  An iteration that ends its transmission without a handle (none
    was held, or the write was refused) makes exactly one attempt to open one,
    which yields a handle exactly when the driver lets it; an iteration whose
    write was accepted makes none.  So a frame entered without a handle always
    tries again, once, and a run of frames opens the port at most once per
    frame. *)
Theorem link_recovers :
  (forall held x y w,
      let '(w1, (h, ok)) := send_coord drv held x y w in
      opens w1 = opens w
      /\ ((exists u, held = Some u /\ write_ok drv (writes w) = true
                     /\ h = Some u /\ ok = 1
                     /\ w1 = w ++ [EvWrite (wire_line x y) true])
          \/ (exists u, held = Some u /\ write_ok drv (writes w) = false
                        /\ h = None /\ ok = 0
                        /\ w1 = w ++ [EvWrite (wire_line x y) false])
          \/ (held = None /\ h = None /\ ok = 0 /\ w1 = w)))
  /\ (forall fr st w, exists st' rep w',
        iteration cfg drv fr st w = inr (st', rep, w')
        /\ (writes w' <= S (writes w))%nat
        /\ ((last_tx_ok st' = 1 /\ serial st <> None
             /\ write_ok drv (writes w) = true
             /\ serial st' = serial st
             /\ opens w' = opens w)
            \/ (last_tx_ok st' = 0
                /\ (serial st = None \/ write_ok drv (writes w) = false)
                /\ opens w' = S (opens w)
                /\ serial st' = if open_ok drv (opens w)
                                then Some (mkUART UART_PORT UART_BAUD) else None)))
  /\ (forall fr st w st' rep w',
        iteration cfg drv fr st w = inr (st', rep, w') ->
        serial st = None ->
        opens w' = S (opens w)
        /\ serial st' = if open_ok drv (opens w)
                        then Some (mkUART UART_PORT UART_BAUD) else None)
  /\ (forall frames st w, exists st' w',
        run cfg drv frames st w = inr (st', w')
        /\ (opens w' <= opens w + List.length frames)%nat).
Proof.
  assert (Hsend : forall held x y w,
      let '(w1, (h, ok)) := send_coord drv held x y w in
      opens w1 = opens w
      /\ ((exists u, held = Some u /\ write_ok drv (writes w) = true
                     /\ h = Some u /\ ok = 1
                     /\ w1 = w ++ [EvWrite (wire_line x y) true])
          \/ (exists u, held = Some u /\ write_ok drv (writes w) = false
                        /\ h = None /\ ok = 0
                        /\ w1 = w ++ [EvWrite (wire_line x y) false])
          \/ (held = None /\ h = None /\ ok = 0 /\ w1 = w))).
  { intros held x y w. unfold send_coord, uart_write.
    fold (wire_line x y).
    destruct held as [u|]; [destruct (write_ok drv (writes w)) eqn:E|].
    - rewrite opens_write. split; [reflexivity|].
      left. exists u. repeat split.
    - rewrite opens_write. split; [reflexivity|].
      right. left. exists u. repeat split.
    - split; [reflexivity|]. right. right. repeat split. }
  assert (Hframe : forall fr st w, exists st' rep w',
        iteration cfg drv fr st w = inr (st', rep, w')
        /\ (writes w' <= S (writes w))%nat
        /\ ((last_tx_ok st' = 1 /\ serial st <> None
             /\ write_ok drv (writes w) = true
             /\ serial st' = serial st
             /\ opens w' = opens w)
            \/ (last_tx_ok st' = 0
                /\ (serial st = None \/ write_ok drv (writes w) = false)
                /\ opens w' = S (opens w)
                /\ serial st' = if open_ok drv (opens w)
                                then Some (mkUART UART_PORT UART_BAUD) else None))).
  { intros fr st w.
    destruct (iteration_link fr st w) as (st' & rep & w' & w1 & Hi & Hs & Hok & Hko).
    exists st', rep, w'. split; [exact Hi|].
    pose proof (Hsend (serial st) (r_cx rep) (r_cy rep) w) as H. rewrite Hs in H.
    destruct H as [Ho [(u & Hu & Hacc & _ & H1 & Hw)
                      |[(u & Hu & Href & _ & H0 & Hw)|(Hn & _ & H0 & Hw)]]].
    - assert (Hnz : last_tx_ok st' <> 0) by lia.
      destruct (Hok Hnz) as [Hw' Hser]. subst w' w1.
      rewrite writes_write, opens_write. split; [lia|]. left.
      split; [exact H1|]. split; [rewrite Hu; discriminate|].
      split; [exact Hacc|]. split; [exact Hser | reflexivity].
    - specialize (Hko H0). rewrite init_uart_once in Hko.
      injection Hko as Hw' Hser. subst w' w1.
      rewrite writes_open, opens_open, writes_write, !opens_write.
      split; [lia|]. right.
      split; [exact H0|]. split; [right; exact Href|]. split; [reflexivity|].
      rewrite Hser, opens_write. reflexivity.
    - specialize (Hko H0). rewrite init_uart_once in Hko.
      injection Hko as Hw' Hser. subst w' w1.
      rewrite writes_open, opens_open.
      split; [lia|]. right.
      split; [exact H0|]. split; [left; exact Hn|]. split; [reflexivity | exact Hser]. }
  split; [exact Hsend|]. split; [exact Hframe|]. split; [|exact run_opens_bounded].
  intros fr st w st' rep w' Hi Hnone.
  destruct (Hframe fr st w) as (st2 & rep2 & w2 & Hi2 & _ & H).
  rewrite Hi in Hi2. inversion Hi2; subst st2 rep2 w2.
  destruct H as [(_ & Hn & _)|(_ & _ & Ho & Hs)]; [contradiction|auto].
Qed.

End LoopFacts.

(** ** Worked frames *)

Example scenario_solid_blob :
  find_white_frame_center shipped frame240 0 0 [solid_blob] = inr (55, 47, 1, 4).
Proof. reflexivity. Qed.

Example scenario_no_blobs :
  find_white_frame_center shipped frame240 0 0 [] = inr (0, 0, 0, 0).
Proof. reflexivity. Qed.

Example scenario_hollow_blob :
  find_white_frame_center shipped frame240 0 0 [solid_blob; hollow_blob]
  = inr (120, 120, 2, 1).
Proof. reflexivity. Qed.

Example scenario_shipped_edge :
  find_white_frame_center shipped frame240 0 0 [edge_blob] = inr (5, 60, 1, 1).
Proof. reflexivity. Qed.

(** At the worked scenario the one blob passes steps 1-3, so the fallback slot
    is filled and the tag is not "none". *)
Lemma fallback_never_empty_witness :
  (exists fb, fallback (fst (evaluate shipped frame240 0 0 [solid_blob])) = Some fb
              /\ In fb [solid_blob] /\ passes_steps_1_3 shipped frame240 fb)
  /\ (exists x y t,
        find_white_frame_center shipped frame240 0 0 [solid_blob]
        = inr (x, y, Z.of_nat (List.length [solid_blob]), tier_code t)
        /\ t <> TierNone).
Proof.
  apply (fallback_never_empty shipped frame240 0 0 [solid_blob]).
  exists solid_blob. split; [left; reflexivity|].
  unfold passes_steps_1_3, Qle; cbn. lia.
Defined.

(** With a strict best in hand the answer is tagged accepted, though the
    frame also holds a fallback candidate. *)
Lemma select_order_witness :
  find_white_frame_center shipped frame240 0 0 [solid_blob; hollow_blob]
  = inr (cx hollow_blob, cy hollow_blob, 2, tier_code TierAccepted).
Proof.
  destruct (select_order shipped frame240 0 0 [solid_blob; hollow_blob]) as [H _].
  apply (H hollow_blob). reflexivity.
Defined.

(** A frame whose only blob is over the area cap. *)
Lemma none_when_no_gate_passes_witness :
  find_white_frame_center shipped frame240 0 0 [huge_blob]
  = inr (0, 0, 1, tier_code TierNone).
Proof.
  apply (none_when_no_gate_passes shipped frame240 0 0 [huge_blob]).
  intros b [<-|[]]. unfold passes_steps_1_3; cbn. lia.
Defined.

(** The score of the left blob with the prior fix at (150,120). *)
Lemma score_is_the_ranking_key_witness :
  (score_of shipped frame240 150 120 left_blob
   == QofZ (area left_blob) - CENTER_WEIGHT shipped * center_dist2 frame240 left_blob
      - TRACK_WEIGHT shipped * QofZ (track_dist2 150 120 left_blob))%Q.
Proof.
  destruct (score_is_the_ranking_key shipped frame240 150 120) as [H _].
  apply (H left_blob). left. lia.
Defined.

(** With the prior fix at (150,120) the right blob outscores the left one. *)
Lemma continuity_bias_witness :
  (score_of shipped frame240 150 120 left_blob
   < score_of shipped frame240 150 120 right_blob)%Q.
Proof.
  apply (continuity_bias shipped frame240 150 120 left_blob right_blob).
  - reflexivity.
  - reflexivity.
  - reflexivity.
  - left. lia.
  - reflexivity.
Defined.

(** With a margin of 10, an edge-hugging blob of density 0.5 stays out of the
    strict slot and is offered to the fallback and relaxed slots. *)
Lemma edge_margin_skips_candidate_witness :
  let cfg := with_edge_margin shipped 10 in
  let s0 := fst (evaluate cfg frame240 0 0 []) in
  let s1 := fst (evaluate cfg frame240 0 0 ([] ++ [dense_edge_blob])) in
  best s1 = best s0
  /\ fallback s1 = keep cfg frame240 0 0 (fallback s0) dense_edge_blob
  /\ (density_strict cfg dense_edge_blob = false ->
      relaxed s1 = keep cfg frame240 0 0 (relaxed s0) dense_edge_blob).
Proof.
  apply (edge_margin_skips_candidate (with_edge_margin shipped 10) frame240 0 0 []
           dense_edge_blob).
  - reflexivity.
  - left. reflexivity.
  - unfold passes_steps_1_3, Qle; cbn. lia.
  - discriminate.
  - discriminate.
  - reflexivity.
  - reflexivity.
Defined.

(** The first frame of a session that starts without a port. *)
Lemma anchor_update_witness :
  exists x y n t st' rep w',
    find_white_frame_center shipped frame240 0 0 [hollow_blob] = inr (x, y, n, tier_code t)
    /\ iteration shipped steady (mkFrame frame240 [hollow_blob]) cold [] = inr (st', rep, w')
    /\ out_valid rep = tier_code t
    /\ (t <> TierNone /\ x <> 0 /\ y <> 0 -> last_cx st' = x /\ last_cy st' = y)
    /\ (t = TierNone \/ x = 0 \/ y = 0 ->
        last_cx st' = last_cx cold /\ last_cy st' = last_cy cold).
Proof.
  exact (anchor_update shipped steady (mkFrame frame240 [hollow_blob]) cold []).
Defined.

(** A session holding a fix at (120,120): a frame whose accepted blob is
    reported on the x = 0 line, and a frame tagged none, both leave the fix
    where it was. *)
Lemma zero_coordinate_never_anchors_witness :
  (exists st' rep w',
      iteration shipped steady (mkFrame frame240 [axis_blob]) warm [] = inr (st', rep, w')
      /\ out_valid rep = tier_code TierAccepted
      /\ r_cx rep = 0 /\ r_cy rep = 120
      /\ last_cx st' = 120 /\ last_cy st' = 120)
  /\ (exists st' rep w',
        iteration shipped steady (mkFrame frame240 [huge_blob]) warm [] = inr (st', rep, w')
        /\ out_valid rep = tier_code TierNone
        /\ last_cx st' = 120 /\ last_cy st' = 120).
Proof.
  split.
  - destruct (zero_coordinate_never_anchors shipped steady
                (mkFrame frame240 [axis_blob]) warm [])
      as (x & y & n & v & st' & rep & w' & Hf & Hi & H).
    assert (Hx : x = 0) by (vm_compute in Hf; congruence).
    destruct (H (or_introl Hx)) as [Hlx Hly].
    exists st', rep, w'. split; [exact Hi|].
    assert (Hrep : rep = mkReport 0 120 1 1) by (vm_compute in Hi; congruence).
    rewrite Hrep. repeat split; assumption.
  - destruct (zero_coordinate_never_anchors shipped steady
                (mkFrame frame240 [huge_blob]) warm [])
      as (x & y & n & v & st' & rep & w' & Hf & Hi & H).
    assert (Hx : x = 0) by (vm_compute in Hf; congruence).
    destruct (H (or_introl Hx)) as [Hlx Hly].
    exists st', rep, w'. split; [exact Hi|].
    assert (Hrep : rep = mkReport 0 0 1 0) by (vm_compute in Hi; congruence).
    rewrite Hrep. repeat split; assumption.
Defined.

(** A session without a handle, on a driver whose first open fails: the first
    frame tries once and stays without a handle.  A session with a handle, on
    a driver that refuses the write: the failure is reported and the port is
    opened afresh, once. *)
Lemma link_recovers_witness :
  (exists st' rep w',
      iteration shipped late (mkFrame frame240 [hollow_blob]) cold [] = inr (st', rep, w')
      /\ opens w' = 1%nat
      /\ serial st' = None)
  /\ (exists st' rep w',
        iteration shipped deaf (mkFrame frame240 [hollow_blob]) linked []
        = inr (st', rep, w')
        /\ last_tx_ok st' = 0
        /\ opens w' = 1%nat
        /\ serial st' = Some (mkUART UART_PORT UART_BAUD)).
Proof.
  split.
  - eexists _, _, _. split; [reflexivity|].
    destruct (link_recovers shipped late) as (_ & _ & H & _).
    apply (H (mkFrame frame240 [hollow_blob]) cold [] _ _ _ eq_refl eq_refl).
  - destruct (link_recovers shipped deaf) as (_ & H & _).
    destruct (H (mkFrame frame240 [hollow_blob]) linked [])
      as (st' & rep & w' & Hi & _ & [(_ & _ & Hacc & _)|(H0 & _ & Ho & Hs)]).
    + discriminate Hacc.
    + exists st', rep, w'. repeat split; assumption.
Defined.

Example refused_write_drops_handle :
  send_coord deaf (Some (mkUART UART_PORT UART_BAUD)) 55 47 []
  = ([EvWrite (wire_line 55 47) false], (None, 0)).
Proof. reflexivity. Qed.

(** ** Where the description and the script part ways *)

(** C1, as worded, fails: a fallback-tier frame moves the stored centroid. *)
Lemma fallback_frame_moves_anchor :
  ~ (forall st' rep w',
        iteration shipped steady (mkFrame frame240 [solid_blob]) cold [] = inr (st', rep, w') ->
        out_valid rep = tier_code TierFallback ->
        (last_cx st', last_cy st') = (last_cx cold, last_cy cold)).
Proof.
  intros H.
  specialize (H _ _ _ eq_refl eq_refl). discriminate H.
Qed.

(** C2, as worded, fails: with a margin of 10, the edge-hugging blob passes
    steps 1-3 and the aspect and relaxed-density gates, yet it is not the
    relaxed best of a frame in which it is the only blob; the frame is
    answered from the fallback tier. *)
Lemma edge_blob_not_relaxed :
  let cfg := with_edge_margin shipped 10 in
  EDGE_MARGIN cfg > 0
  /\ near_edge cfg frame240 edge_blob
  /\ passes_steps_1_3 cfg frame240 edge_blob
  /\ aspect_ok cfg edge_blob = true
  /\ density_ok cfg edge_blob = true
  /\ relaxed (fst (evaluate cfg frame240 0 0 [edge_blob])) <> Some edge_blob
  /\ find_white_frame_center cfg frame240 0 0 [edge_blob]
     = inr (5, 60, 1, tier_code TierFallback).
Proof.
  cbv zeta. split; [reflexivity|]. split; [left; reflexivity|].
  split; [unfold passes_steps_1_3, Qle; cbn; lia|].
  split; [reflexivity|]. split; [reflexivity|]. split; [discriminate | reflexivity].
Qed.

Example scenario_dense_edge :
  find_white_frame_center (with_edge_margin shipped 10) frame240 0 0 [dense_edge_blob]
  = inr (5, 60, 1, 3).
Proof. reflexivity. Qed.

(** ** More on the scan: what the tags mean *)

Section TagFacts.
Variable cfg : Config.
Variable gray_img : Image.

Lemma Qlt_bool_false x y : Qlt_bool x y = false <-> (y <= x)%Q.
Proof. unfold Qlt_bool. rewrite negb_false_iff. apply Qle_bool_iff. Qed.

Lemma aspect_ok_iff b : aspect_ok cfg b = true <-> in_aspect_band cfg b.
Proof.
  unfold aspect_ok, in_aspect_band.
  rewrite negb_true_iff, orb_false_iff, Qlt_bool_false, Qgt_bool_false. tauto.
Qed.

Lemma density_ok_iff b : density_ok cfg b = true <-> in_relaxed_band cfg b.
Proof.
  unfold density_ok, in_relaxed_band.
  rewrite negb_true_iff, orb_false_iff, Qlt_bool_false, Qgt_bool_false. tauto.
Qed.

Lemma plain_no_edge b : plain_config cfg -> edge_hit cfg gray_img b = false.
Proof. intros (_ & _ & He). unfold edge_hit. rewrite He. reflexivity. Qed.

Lemma plain_box_nonzero b :
  plain_config cfg -> pass_gates cfg gray_img b = true ->
  (rect_h b =? 0) = false /\ (rect_w b * rect_h b =? 0) = false.
Proof.
  intros (Hw & Hh & _) Hg. apply pass_gates_iff in Hg.
  destruct Hg as (_ & Hgw & Hgh & _).
  split; apply Z.eqb_neq; nia.
Qed.

Lemma relaxed_elig_iff b :
  plain_config cfg ->
  (relaxed_elig cfg gray_img b = true <-> relaxed_candidate cfg gray_img b).
Proof.
  intros Hp. unfold relaxed_elig, reaches_tiers, relaxed_candidate.
  rewrite (plain_no_edge b Hp), andb_false_r. cbn [negb]. rewrite andb_true_r.
  rewrite <- pass_gates_iff, <- aspect_ok_iff, <- density_ok_iff.
  destruct (pass_gates cfg gray_img b) eqn:Hg; cbn [andb].
  - destruct (plain_box_nonzero b Hp Hg) as [-> ->]. cbn [negb andb].
    rewrite andb_true_r, andb_true_iff. tauto.
  - split; [discriminate | intros (H & _); discriminate].
Qed.

Lemma strict_elig_iff b :
  plain_config cfg ->
  (strict_elig cfg gray_img b = true <-> strict_candidate cfg gray_img b).
Proof.
  intros Hp. unfold strict_candidate. rewrite <- (relaxed_elig_iff b Hp).
  unfold strict_elig, relaxed_elig, density_strict.
  rewrite (plain_no_edge b Hp), andb_false_r. cbn [negb]. rewrite !andb_true_r.
  rewrite andb_true_iff, Qle_bool_iff. tauto.
Qed.

Lemma strict_in_relaxed b :
  strict_elig cfg gray_img b = true -> relaxed_elig cfg gray_img b = true.
Proof.
  unfold strict_elig, relaxed_elig. rewrite !andb_true_iff, !negb_true_iff.
  intros [[H1 H2] H3]. rewrite H3, andb_false_r. auto.
Qed.

Lemma existsb_filter_nil (f : Blob -> bool) l :
  existsb f l = false <-> filter f l = [].
Proof.
  induction l as [|a l IH]; cbn; [tauto|].
  destruct (f a); cbn; [split; discriminate | exact IH].
Qed.

Lemma existsb_false_all (f : Blob -> bool) l :
  existsb f l = false <-> forall b, In b l -> f b = false.
Proof.
  split.
  - intros H b Hb. destruct (f b) eqn:E; [|reflexivity].
    assert (existsb f l = true) by (apply existsb_exists; eauto). congruence.
  - intros H. apply existsb_filter_nil, filter_none, H.
Qed.

Lemma pick_empty lx ly l : pick cfg gray_img lx ly l = None <-> l = [].
Proof.
  split; [|intros ->; reflexivity].
  destruct l as [|b r]; [reflexivity|].
  destruct (pick_nonempty cfg gray_img lx ly b r) as [m Hm]. congruence.
Qed.

(** The function's answer, slot by slot and tag by tag. *)
Lemma fwfc_tag lx ly l :
  exists x y,
    find_white_frame_center cfg gray_img lx ly l
    = inr (x, y, Z.of_nat (List.length l), tag_of cfg gray_img l)
    /\ (tag_of cfg gray_img l = 0 -> x = 0 /\ y = 0)
    /\ (tag_of cfg gray_img l <> 0 ->
        exists b, In b l /\ pass_gates cfg gray_img b = true /\ x = cx b /\ y = cy b).
Proof.
  rewrite fwfc_run. unfold select, tag_of.
  rewrite best_eval, relaxed_eval, fallback_eval.
  destruct (pick cfg gray_img lx ly (filter (strict_elig cfg gray_img) l)) as [a|] eqn:Ea.
  - pose proof (pick_in _ _ _ _ _ _ Ea) as Hin. apply filter_In in Hin.
    destruct Hin as [Hin He].
    assert (Hx : existsb (strict_elig cfg gray_img) l = true)
      by (apply existsb_exists; eauto).
    rewrite Hx. exists (cx a), (cy a). split; [reflexivity|]. split; [discriminate|].
    intros _. exists a. auto using strict_elig_gates.
  - apply pick_empty, existsb_filter_nil in Ea. rewrite Ea.
    destruct (pick cfg gray_img lx ly (filter (relaxed_elig cfg gray_img) l)) as [r|] eqn:Er.
    + pose proof (pick_in _ _ _ _ _ _ Er) as Hin. apply filter_In in Hin.
      destruct Hin as [Hin He].
      assert (Hx : existsb (relaxed_elig cfg gray_img) l = true)
        by (apply existsb_exists; eauto).
      rewrite Hx. exists (cx r), (cy r). split; [reflexivity|]. split; [discriminate|].
      intros _. exists r. auto using relaxed_elig_gates.
    + apply pick_empty, existsb_filter_nil in Er. rewrite Er.
      destruct (pick cfg gray_img lx ly (filter (fallback_elig cfg gray_img) l))
        as [f|] eqn:Ef.
      * pose proof (pick_in _ _ _ _ _ _ Ef) as Hin. apply filter_In in Hin.
        destruct Hin as [Hin He].
        assert (Hx : existsb (fallback_elig cfg gray_img) l = true)
          by (apply existsb_exists; eauto).
        rewrite Hx. exists (cx f), (cy f). split; [reflexivity|]. split; [discriminate|].
        intros _. exists f. auto.
      * apply pick_empty, existsb_filter_nil in Ef. rewrite Ef.
        exists 0, 0. split; [reflexivity|]. split; [auto | congruence].
Qed.

(** X1. With positive minimum box sizes and no edge margin, the tag says
    which bands the frame's blobs reach: accepted exactly when some blob passes
    steps 1-3, the aspect band and the density band up to the strict bound;
    relaxed exactly when none does but some blob passes up to the relaxed
    bound; fallback exactly when none does but some blob passes steps 1-3;
    none exactly when no blob passes steps 1-3. *)
Theorem tag_meaning lx ly l :
  plain_config cfg ->
  exists x y v,
    find_white_frame_center cfg gray_img lx ly l = inr (x, y, Z.of_nat (List.length l), v)
    /\ (v = 1 <-> exists b, In b l /\ strict_candidate cfg gray_img b)
    /\ (v = 3 <-> (~ exists b, In b l /\ strict_candidate cfg gray_img b)
                  /\ exists b, In b l /\ relaxed_candidate cfg gray_img b)
    /\ (v = 4 <-> (~ exists b, In b l /\ relaxed_candidate cfg gray_img b)
                  /\ exists b, In b l /\ passes_steps_1_3 cfg gray_img b)
    /\ (v = 0 <-> ~ exists b, In b l /\ passes_steps_1_3 cfg gray_img b).
Proof.
  intros Hp. destruct (fwfc_tag lx ly l) as (x & y & Hf & _).
  exists x, y, (tag_of cfg gray_img l). split; [exact Hf|].
  assert (Hs : existsb (strict_elig cfg gray_img) l = true
               <-> exists b, In b l /\ strict_candidate cfg gray_img b).
  { rewrite existsb_exists. split; intros (b & Hb & H); exists b;
      (split; [exact Hb | apply (strict_elig_iff b Hp); exact H]). }
  assert (Hr : existsb (relaxed_elig cfg gray_img) l = true
               <-> exists b, In b l /\ relaxed_candidate cfg gray_img b).
  { rewrite existsb_exists. split; intros (b & Hb & H); exists b;
      (split; [exact Hb | apply (relaxed_elig_iff b Hp); exact H]). }
  assert (Hg : existsb (fallback_elig cfg gray_img) l = true
               <-> exists b, In b l /\ passes_steps_1_3 cfg gray_img b).
  { rewrite existsb_exists. split; intros (b & Hb & H); exists b;
      (split; [exact Hb | apply pass_gates_iff; exact H]). }
  assert (Hsr : existsb (strict_elig cfg gray_img) l = true ->
                existsb (relaxed_elig cfg gray_img) l = true).
  { rewrite !existsb_exists. intros (b & Hb & H). exists b. auto using strict_in_relaxed. }
  assert (Hrg : existsb (relaxed_elig cfg gray_img) l = true ->
                existsb (fallback_elig cfg gray_img) l = true).
  { rewrite !existsb_exists. intros (b & Hb & H). exists b.
    split; [exact Hb | apply relaxed_elig_gates; exact H]. }
  unfold tag_of.
  destruct (existsb (strict_elig cfg gray_img) l);
    destruct (existsb (relaxed_elig cfg gray_img) l);
    destruct (existsb (fallback_elig cfg gray_img) l);
    try (specialize (Hsr eq_refl)); try (specialize (Hrg eq_refl));
    try discriminate;
    repeat split; try discriminate; try tauto; intros; intuition discriminate.
Qed.

End TagFacts.

(** ** More on the scan: what is chosen *)

Section ChoiceFacts.
Variable cfg : Config.
Variable gray_img : Image.
Variables lx ly : Z.

Abbreviation scr := (score_of cfg gray_img lx ly).
Abbreviation evl := (evaluate cfg gray_img lx ly).
Abbreviation kpf := (keep cfg gray_img lx ly).
Abbreviation pck := (pick cfg gray_img lx ly).

(** X2. The tag is always one of 0, 1, 3, 4; tag 0 comes with centroid
    (0,0), and any other tag comes with the centroid of a blob of the frame
    that passed steps 1-3. *)
Theorem detection_is_a_blob l :
  exists x y v,
    find_white_frame_center cfg gray_img lx ly l = inr (x, y, Z.of_nat (List.length l), v)
    /\ (v = 0 \/ v = 1 \/ v = 3 \/ v = 4)
    /\ (v = 0 -> x = 0 /\ y = 0)
    /\ (v <> 0 -> exists b, In b l /\ passes_steps_1_3 cfg gray_img b
                            /\ x = cx b /\ y = cy b).
Proof.
  destruct (fwfc_tag cfg gray_img lx ly l) as (x & y & Hf & H0 & H1).
  exists x, y, (tag_of cfg gray_img l). split; [exact Hf|]. split.
  - unfold tag_of. repeat match goal with |- context [if ?c then _ else _] => destruct c end;
      auto.
  - split; [exact H0|]. intros Hv. destruct (H1 Hv) as (b & Hb & Hg & Hx & Hy).
    exists b. split; [exact Hb|]. split; [apply pass_gates_iff; exact Hg | auto].
Qed.

Lemma sublist_pick_le (f g : Blob -> bool) l a :
  (forall b, f b = true -> g b = true) ->
  pck (filter f l) = Some a ->
  exists m, pck (filter g l) = Some m /\ (scr a <= scr m)%Q.
Proof.
  intros Hfg Ha. pose proof (pick_in _ _ _ _ _ _ Ha) as Hin.
  apply filter_In in Hin. destruct Hin as [Hin Hf].
  assert (Hg : In a (filter g l)) by (apply filter_In; auto).
  destruct (pck (filter g l)) as [m|] eqn:Em.
  - exists m. split; [reflexivity|]. apply (pick_max _ _ _ _ _ _ _ Em Hg).
  - apply pick_empty in Em. rewrite Em in Hg. destruct Hg.
Qed.

(** X3. The tiers nest: a frame with a strict best has a relaxed best
    scoring at least as high, and a frame with a relaxed best has a fallback
    best scoring at least as high. *)
Theorem tiers_nest l :
  let s := fst (evaluate cfg gray_img lx ly l) in
  (forall a, best s = Some a ->
     exists r, relaxed s = Some r
               /\ (score_of cfg gray_img lx ly a <= score_of cfg gray_img lx ly r)%Q)
  /\ (forall r, relaxed s = Some r ->
     exists f, fallback s = Some f
               /\ (score_of cfg gray_img lx ly r <= score_of cfg gray_img lx ly f)%Q).
Proof.
  cbv zeta. rewrite best_eval, relaxed_eval, fallback_eval. split.
  - intros a Ha. apply (sublist_pick_le _ _ _ _ (strict_in_relaxed cfg gray_img) Ha).
  - intros r Hr. apply (sublist_pick_le _ _ _ _ (relaxed_elig_gates cfg gray_img) Hr).
Qed.

(** X7. With positive minimum box sizes and no edge margin, the [try] body
    raises on no blob, in whatever state the scan has reached. *)
Theorem try_never_raises pre b :
  plain_config cfg ->
  area b <= MAX_AREA cfg ->
  forall e,
    snd (try_body cfg gray_img lx ly b (fst (evaluate cfg gray_img lx ly pre))) <> Raise e.
Proof.
  intros Hp Ha e Hr.
  assert (Hwf : wf cfg gray_img lx ly (fst (evl pre))).
  { rewrite fst_eval. apply fold_step_wf, wf_locals0. }
  assert (Ha' : (area b >? MAX_AREA cfg) = false) by (rewrite Z.gtb_ltb; apply Z.ltb_ge; lia).
  destruct (try_body_run cfg gray_img lx ly _ b Hwf Ha') as [_ Hf].
  rewrite Hr in Hf. revert Hf. unfold fault_of.
  destruct (pass_gates cfg gray_img b) eqn:Hg; cbn [negb]; [|discriminate].
  destruct (plain_box_nonzero cfg gray_img b Hp Hg) as [-> ->].
  rewrite (plain_no_edge cfg gray_img b Hp), andb_false_r.
  destruct (aspect_ok cfg b), (density_ok cfg b); discriminate.
Qed.

Lemma filter_filter_sub (f g : Blob -> bool) l :
  (forall b, f b = true -> g b = true) ->
  filter f (filter g l) = filter f l.
Proof.
  intros H. induction l as [|a l IH]; [reflexivity|]. cbn.
  destruct (g a) eqn:Eg; cbn; [rewrite IH; reflexivity|].
  destruct (f a) eqn:Ef; [|exact IH]. rewrite (H a Ef) in Eg. discriminate.
Qed.

(** X8. Blobs rejected at steps 1-3 change nothing but the count: the
    function answers a frame and the frame without them with the same
    centroid and the same tag. *)
Theorem rejected_blobs_only_count l :
  exists x y v,
    find_white_frame_center cfg gray_img lx ly l = inr (x, y, Z.of_nat (List.length l), v)
    /\ find_white_frame_center cfg gray_img lx ly (filter (pass_gates cfg gray_img) l)
       = inr (x, y, Z.of_nat (List.length (filter (pass_gates cfg gray_img) l)), v).
Proof.
  rewrite !fwfc_run. unfold select. rewrite !best_eval, !relaxed_eval, !fallback_eval.
  rewrite (filter_filter_sub _ _ l (strict_elig_gates cfg gray_img)).
  rewrite (filter_filter_sub _ _ l (relaxed_elig_gates cfg gray_img)).
  rewrite (filter_filter_sub (fallback_elig cfg gray_img) (pass_gates cfg gray_img) l
             (fun b H => H)).
  destruct (pck (filter (strict_elig cfg gray_img) l)) as [a|]; [eexists _, _, _; eauto|].
  destruct (pck (filter (relaxed_elig cfg gray_img) l)) as [r|]; [eexists _, _, _; eauto|].
  destruct (pck (filter (fallback_elig cfg gray_img) l)) as [f|]; eexists _, _, _; eauto.
Qed.

End ChoiceFacts.

(** ** More on the scan: what does not matter *)

Section InvarianceFacts.
Variable cfg : Config.
Variable gray_img : Image.

Lemma existsb_perm (f : Blob -> bool) l l' :
  Permutation l l' -> existsb f l = existsb f l'.
Proof.
  intros Hp. destruct (existsb f l') eqn:E.
  - apply existsb_exists in E. destruct E as (b & Hb & Hf).
    apply existsb_exists. exists b. split; [|exact Hf].
    apply Permutation_in with l'; [apply Permutation_sym; exact Hp | exact Hb].
  - rewrite existsb_false_all in *. intros b Hb. apply E.
    apply Permutation_in with l; assumption.
Qed.

Lemma tag_perm l l' : Permutation l l' -> tag_of cfg gray_img l = tag_of cfg gray_img l'.
Proof.
  intros Hp. unfold tag_of.
  rewrite (existsb_perm (strict_elig cfg gray_img) l l' Hp).
  rewrite (existsb_perm (relaxed_elig cfg gray_img) l l' Hp).
  rewrite (existsb_perm (fallback_elig cfg gray_img) l l' Hp). reflexivity.
Qed.

Lemma pick_perm_score lx ly (f : Blob -> bool) l l' m m' :
  Permutation l l' ->
  pick cfg gray_img lx ly (filter f l) = Some m ->
  pick cfg gray_img lx ly (filter f l') = Some m' ->
  (score_of cfg gray_img lx ly m == score_of cfg gray_img lx ly m')%Q.
Proof.
  intros Hp Hm Hm'.
  assert (Hin : In m (filter f l')).
  { apply pick_in in Hm. apply filter_In in Hm. destruct Hm as [Hm Hf].
    apply filter_In. split; [apply Permutation_in with l; assumption | exact Hf]. }
  assert (Hin' : In m' (filter f l)).
  { apply pick_in in Hm'. apply filter_In in Hm'. destruct Hm' as [Hm' Hf].
    apply filter_In. split; [|exact Hf].
    apply Permutation_in with l'; [apply Permutation_sym; exact Hp | exact Hm']. }
  apply Qle_antisym.
  - apply (pick_max _ _ _ _ _ _ _ Hm' Hin).
  - apply (pick_max _ _ _ _ _ _ _ Hm Hin').
Qed.

(** X5. The order in which the blobs arrive does not change the tag or the
    count, nor the score of the blob held in any slot; only which of several
    equally scoring blobs is held can depend on it. *)
Theorem tag_order_free lx ly l l' :
  Permutation l l' ->
  (exists x y x' y' v,
      find_white_frame_center cfg gray_img lx ly l
      = inr (x, y, Z.of_nat (List.length l), v)
      /\ find_white_frame_center cfg gray_img lx ly l'
         = inr (x', y', Z.of_nat (List.length l), v))
  /\ let s := fst (evaluate cfg gray_img lx ly l) in
     let s' := fst (evaluate cfg gray_img lx ly l') in
     let same_top (slot : Locals -> option Blob) :=
       (slot s = None <-> slot s' = None)
       /\ forall m m', slot s = Some m -> slot s' = Some m' ->
            (score_of cfg gray_img lx ly m == score_of cfg gray_img lx ly m')%Q in
     same_top best /\ same_top relaxed /\ same_top fallback.
Proof.
  intros Hp. split.
  - destruct (fwfc_tag cfg gray_img lx ly l) as (x & y & Hf & _).
    destruct (fwfc_tag cfg gray_img lx ly l') as (x' & y' & Hf' & _).
    exists x, y, x', y', (tag_of cfg gray_img l). split; [exact Hf|].
    rewrite Hf', (Permutation_length Hp), (tag_perm l l' Hp). reflexivity.
  - cbv beta zeta. rewrite !best_eval, !relaxed_eval, !fallback_eval.
    assert (Hn : forall f : Blob -> bool,
               pick cfg gray_img lx ly (filter f l) = None
               <-> pick cfg gray_img lx ly (filter f l') = None).
    { intros f. rewrite !pick_empty, <- !existsb_filter_nil, (existsb_perm f l l' Hp).
      tauto. }
    repeat split; try apply Hn; intros m m'; apply pick_perm_score; exact Hp.
Qed.

(** X6. The prior centroid does not change the tag or the count: it only
    bears on which blob of the answering tier is chosen. *)
Theorem tag_ignores_prior lx ly lx' ly' l :
  exists x y x' y' v,
    find_white_frame_center cfg gray_img lx ly l
    = inr (x, y, Z.of_nat (List.length l), v)
    /\ find_white_frame_center cfg gray_img lx' ly' l
       = inr (x', y', Z.of_nat (List.length l), v).
Proof.
  destruct (fwfc_tag cfg gray_img lx ly l) as (x & y & Hf & _).
  destruct (fwfc_tag cfg gray_img lx' ly' l) as (x' & y' & Hf' & _).
  exists x, y, x', y', (tag_of cfg gray_img l). split; assumption.
Qed.

Lemma center_dist2_nonneg b : (0 <= center_dist2 gray_img b)%Q.
Proof.
  unfold center_dist2.
  set (u := (QofZ (cx b) - QofZ (width gray_img) / 2)%Q).
  set (v := (QofZ (cy b) - QofZ (height gray_img) / 2)%Q).
  clearbody u v. destruct u as [a p], v as [c q].
  unfold Qle, Qplus, Qmult; cbn. rewrite Z.mul_1_r.
  pose proof (Z.square_nonneg a). pose proof (Z.square_nonneg c).
  apply Z.add_nonneg_nonneg; apply Z.mul_nonneg_nonneg; lia.
Qed.

Lemma track_dist2_nonneg lx ly b : 0 <= track_dist2 lx ly b.
Proof. unfold track_dist2. apply Z.add_nonneg_nonneg; apply Z.square_nonneg. Qed.

Lemma score_split lx ly b :
  (score_of cfg gray_img lx ly b
   == QofZ (area b) - CENTER_WEIGHT cfg * center_dist2 gray_img b
      - (if truthy lx || truthy ly
         then TRACK_WEIGHT cfg * QofZ (track_dist2 lx ly b) else 0))%Q.
Proof.
  unfold score_of, center_dist2, track_dist2, img_cx, img_cy, img_w, img_h.
  destruct (truthy lx || truthy ly); [reflexivity|].
  cbv zeta. ring.
Qed.

(** X9. With non-negative weights no blob scores above its area, so the
    score of any candidate is at most the area cap. *)
Theorem score_at_most_area lx ly b :
  (0 <= CENTER_WEIGHT cfg)%Q ->
  (0 <= TRACK_WEIGHT cfg)%Q ->
  (score_of cfg gray_img lx ly b <= QofZ (area b))%Q
  /\ (pass_gates cfg gray_img b = true ->
      (score_of cfg gray_img lx ly b <= QofZ (MAX_AREA cfg))%Q).
Proof.
  intros Hc Ht.
  assert (H : (score_of cfg gray_img lx ly b <= QofZ (area b))%Q).
  { rewrite score_split.
    pose proof (center_dist2_nonneg b) as H1.
    assert (H2 : (0 <= QofZ (track_dist2 lx ly b))%Q).
    { unfold QofZ. rewrite <- (Zle_Qle 0). apply track_dist2_nonneg. }
    pose proof (Qmult_le_0_compat _ _ Hc H1) as P1.
    pose proof (Qmult_le_0_compat _ _ Ht H2) as P2.
    destruct (truthy lx || truthy ly); lra. }
  split; [exact H|]. intros Hg. apply pass_gates_iff in Hg. destruct Hg as (Ha & _).
  apply Qle_trans with (QofZ (area b)); [exact H|].
  unfold QofZ. rewrite <- Zle_Qle. exact Ha.
Qed.

(** X10. Of two blobs with the same area and the same squared distance to
    the prior centroid, with a positive centre weight, the one strictly
    nearer the frame centre scores strictly higher. *)
Theorem centre_bias lx ly (A B : Blob) :
  area A = area B ->
  track_dist2 lx ly A = track_dist2 lx ly B ->
  (0 < CENTER_WEIGHT cfg)%Q ->
  (center_dist2 gray_img B < center_dist2 gray_img A)%Q ->
  (score_of cfg gray_img lx ly A < score_of cfg gray_img lx ly B)%Q.
Proof.
  intros Ha Ht Hw Hd. rewrite !score_split, Ha, Ht.
  pose proof (proj2 (Qmult_lt_l (center_dist2 gray_img B) (center_dist2 gray_img A)
                        (CENTER_WEIGHT cfg) Hw) Hd) as Hm.
  destruct (truthy lx || truthy ly); lra.
Qed.

End InvarianceFacts.

(** ** More on the frame loop *)

Section LoopMore.
Variable cfg : Config.
Variable drv : Driver.

(** One iteration, field by field. *)
Lemma iteration_full fr st w :
  let res := select (fst (evaluate cfg (gray fr) (last_cx st) (last_cy st) (blobs fr)))
               (blobs fr) in
  let rep := fst (track st res) in
  let okw := match serial st with
             | Some _ => write_ok drv (writes w)
             | None => false
             end in
  let w1 := w ++ match serial st with
                 | Some _ => [EvWrite (wire_line (r_cx rep) (r_cy rep))
                                (write_ok drv (writes w))]
                 | None => []
                 end in
  iteration cfg drv fr st w
  = inr (mkSession (fst (snd (track st res))) (snd (snd (track st res)))
           (if okw then tx_count st + 1 else tx_count st)
           (if okw then 1 else 0)
           (if okw then serial st
            else if open_ok drv (opens w)
                 then Some (mkUART UART_PORT UART_BAUD) else None),
         rep,
         if okw then w1
         else w1 ++ [EvOpen UART_PORT UART_BAUD (open_ok drv (opens w))]).
Proof.
  cbv zeta. unfold iteration. rewrite fwfc_run.
  destruct (track st _) as [rep [ax ay]]. cbn [fst snd].
  unfold send_coord, uart_write, wire_line.
  destruct (serial st) as [u|]; [destruct (write_ok drv (writes w))|].
  - reflexivity.
  - rewrite init_uart_once, opens_write. cbn. reflexivity.
  - rewrite init_uart_once, app_nil_r. cbn. reflexivity.
Qed.

(** X11. What one iteration puts on the link: with a handle held, one line
    carrying the reported centroid, which is "0,0" on a frame tagged none and
    the selected centroid otherwise; without a handle, no line.  Unless that
    line was accepted, one attempt to open the port follows.  Nothing else
    happens on the link. *)
Theorem frame_log fr st w :
  exists x y v st' rep w',
    find_white_frame_center cfg (gray fr) (last_cx st) (last_cy st) (blobs fr)
    = inr (x, y, Z.of_nat (List.length (blobs fr)), v)
    /\ iteration cfg drv fr st w = inr (st', rep, w')
    /\ (r_cx rep, r_cy rep) = (if v =? 0 then (0, 0) else (x, y))
    /\ out_valid rep = v
    /\ blob_cnt rep = Z.of_nat (List.length (blobs fr))
    /\ w' = w ++ match serial st with
                 | Some _ => [EvWrite (wire_line (r_cx rep) (r_cy rep))
                                (write_ok drv (writes w))]
                 | None => []
                 end
              ++ (if last_tx_ok st' =? 0
                  then [EvOpen UART_PORT UART_BAUD (open_ok drv (opens w))] else []).
Proof.
  pose proof (iteration_full fr st w) as Hi. cbv zeta in Hi.
  destruct (fwfc_tag cfg (gray fr) (last_cx st) (last_cy st) (blobs fr))
    as (x & y & Hf & _).
  pose proof Hf as Hsel. rewrite fwfc_run in Hsel. injection Hsel as Hsel.
  rewrite Hsel in Hi.
  exists x, y, (tag_of cfg (gray fr) (blobs fr)).
  eexists _, _, _. split; [exact Hf|]. split; [exact Hi|].
  unfold track, truthy. cbn [fst snd].
  destruct (tag_of cfg (gray fr) (blobs fr) =? 0) eqn:Ev; cbn [negb fst snd r_cx r_cy out_valid blob_cnt last_tx_ok].
  - apply Z.eqb_eq in Ev. rewrite Ev.
    split; [reflexivity|]. split; [reflexivity|]. split; [reflexivity|].
    destruct (serial st); [destruct (write_ok drv (writes w))|]; cbn;
      rewrite <- ?app_assoc, ?app_nil_r; reflexivity.
  - split; [reflexivity|]. split; [reflexivity|]. split; [reflexivity|].
    destruct (serial st); [destruct (write_ok drv (writes w))|]; cbn;
      rewrite <- ?app_assoc, ?app_nil_r; reflexivity.
Qed.

Lemma track_cases st x y n v :
  track st (x, y, n, v)
  = (mkReport (if v =? 0 then 0 else x) (if v =? 0 then 0 else y) n
       (if v =? 0 then 0 else v),
     if negb (v =? 0) && negb (x =? 0) && negb (y =? 0)
     then (x, y) else (last_cx st, last_cy st)).
Proof.
  unfold track, truthy.
  destruct (v =? 0) eqn:Ev, (x =? 0) eqn:Ex, (y =? 0) eqn:Ey;
    cbn; rewrite ?Ev, ?Ex, ?Ey; reflexivity.
Qed.

Lemma ok_writes_app w1 w2 : ok_writes (w1 ++ w2) = (ok_writes w1 + ok_writes w2)%nat.
Proof. unfold ok_writes. rewrite filter_app, length_app. reflexivity. Qed.

Lemma iteration_tx fr st w :
  exists st' rep w',
    iteration cfg drv fr st w = inr (st', rep, w')
    /\ (last_tx_ok st' = 0 \/ last_tx_ok st' = 1)
    /\ tx_count st' = tx_count st + last_tx_ok st'
    /\ Z.of_nat (ok_writes w') = Z.of_nat (ok_writes w) + last_tx_ok st'.
Proof.
  pose proof (iteration_full fr st w) as Hi. cbv zeta in Hi.
  eexists _, _, _. split; [exact Hi|]. cbn [last_tx_ok tx_count].
  destruct (serial st) as [u|]; [destruct (write_ok drv (writes w))|];
    rewrite ?ok_writes_app; cbn; repeat split; auto; lia.
Qed.

(** X12. The transmit counter counts accepted lines: over any run of frames
    it grows by exactly the number of writes the driver accepted, and the
    last-transmit flag is always 0 or 1. *)
Theorem tx_count_counts frames : forall st w,
  exists st' w',
    run cfg drv frames st w = inr (st', w')
    /\ tx_count st' - tx_count st = Z.of_nat (ok_writes w') - Z.of_nat (ok_writes w)
    /\ (frames <> [] -> last_tx_ok st' = 0 \/ last_tx_ok st' = 1).
Proof.
  induction frames as [|fr rest IH]; intros st w.
  - exists st, w. split; [reflexivity|]. split; [lia | congruence].
  - destruct (iteration_tx fr st w) as (st1 & rep & w1 & Hi & Hb & Ht & Hw).
    destruct (IH st1 w1) as (st' & w' & Hr & Hc & Hl).
    exists st', w'. cbn [run]. rewrite Hi. split; [exact Hr|]. split; [lia|].
    intros _. destruct rest as [|fr' rest']; [|apply Hl; discriminate].
    cbn in Hr. assert (Hst : st' = st1) by congruence. rewrite Hst. exact Hb.
Qed.

Lemma iteration_anchor_source fr st w :
  exists st' rep w',
    iteration cfg drv fr st w = inr (st', rep, w')
    /\ ((last_cx st' = last_cx st /\ last_cy st' = last_cy st)
        \/ exists b, In b (blobs fr) /\ passes_steps_1_3 cfg (gray fr) b
                     /\ last_cx st' = cx b /\ last_cy st' = cy b
                     /\ cx b <> 0 /\ cy b <> 0).
Proof.
  destruct (iteration_anchor cfg drv fr st w) as (res & st' & rep & w' & Hf & Hi & _ & Ha).
  exists st', rep, w'. split; [exact Hi|].
  destruct (fwfc_tag cfg (gray fr) (last_cx st) (last_cy st) (blobs fr))
    as (x & y & Hf' & _ & Hb).
  rewrite Hf in Hf'. injection Hf' as ->.
  rewrite track_cases in Ha. cbn [snd] in Ha.
  assert (Hx := f_equal fst Ha). assert (Hy := f_equal snd Ha). clear Ha.
  cbn [fst snd] in Hx, Hy.
  destruct (Z.eqb_spec (tag_of cfg (gray fr) (blobs fr)) 0) as [Hv|Hv];
    [left; split; [exact Hx | exact Hy]|].
  destruct (Z.eqb_spec x 0) as [Hx0|Hx0]; [left; split; [exact Hx | exact Hy]|].
  destruct (Z.eqb_spec y 0) as [Hy0|Hy0]; [left; split; [exact Hx | exact Hy]|].
  cbn in Hx, Hy. right. destruct (Hb Hv) as (b & Hin & Hg & Hbx & Hby).
  exists b. split; [exact Hin|]. split; [apply pass_gates_iff; exact Hg|].
  rewrite <- Hbx, <- Hby. auto.
Qed.

(** X13. Over any run of frames the stored centroid is either the one the
    run started with or the centroid, with both coordinates nonzero, of a blob
    of one of the frames that passed steps 1-3 there; so a session that starts
    with the anchor unset or fully set keeps it that way. *)
Theorem anchor_provenance frames : forall st w,
  exists st' w',
    run cfg drv frames st w = inr (st', w')
    /\ ((last_cx st' = last_cx st /\ last_cy st' = last_cy st)
        \/ exists fr b, In fr frames /\ In b (blobs fr)
                        /\ passes_steps_1_3 cfg (gray fr) b
                        /\ last_cx st' = cx b /\ last_cy st' = cy b
                        /\ cx b <> 0 /\ cy b <> 0)
    /\ (anchor_ok st -> anchor_ok st').
Proof.
  induction frames as [|fr rest IH]; intros st w.
  - exists st, w. split; [reflexivity|]. split; [left; auto | auto].
  - destruct (iteration_anchor_source fr st w) as (st1 & rep & w1 & Hi & H1).
    destruct (IH st1 w1) as (st' & w' & Hr & H2 & _).
    exists st', w'. cbn [run]. rewrite Hi. split; [exact Hr|].
    assert (Hsrc : (last_cx st' = last_cx st /\ last_cy st' = last_cy st)
        \/ exists fr0 b, In fr0 (fr :: rest) /\ In b (blobs fr0)
                        /\ passes_steps_1_3 cfg (gray fr0) b
                        /\ last_cx st' = cx b /\ last_cy st' = cy b
                        /\ cx b <> 0 /\ cy b <> 0).
    { destruct H2 as [[Hx Hy]|(fr0 & b & Hin & Hb)].
      - destruct H1 as [[Hx1 Hy1]|(b & Hb & Hg & Hx1 & Hy1 & Hnz)].
        + left. split; congruence.
        + right. exists fr, b. split; [left; reflexivity|]. split; [exact Hb|].
          split; [exact Hg|]. split; [congruence|]. split; [congruence | exact Hnz].
      - right. exists fr0, b. split; [right; exact Hin | exact Hb]. }
    split; [exact Hsrc|]. unfold anchor_ok. intros Hok.
    destruct Hsrc as [[-> ->]|(fr0 & b & _ & _ & _ & -> & -> & Hnz)]; [exact Hok | right; exact Hnz].
Qed.

(** X15. The cross is drawn exactly on the frames that set the anchor: if the
    overlay holds a cross, it is at the stored centroid, both coordinates are
    nonzero and the tag is not none; if it holds none, the stored centroid is
    the one the iteration started with.  The status text is always the last
    thing drawn. *)
Theorem cross_iff_anchor fr st w :
  exists st' rep w',
    iteration cfg drv fr st w = inr (st', rep, w')
    /\ (forall x y size, In (DrawCross x y size) (overlay rep st') ->
          last_cx st' = x /\ last_cy st' = y /\ x <> 0 /\ y <> 0
          /\ out_valid rep <> 0 /\ size = 10)
    /\ ((forall x y size, ~ In (DrawCross x y size) (overlay rep st')) ->
          last_cx st' = last_cx st /\ last_cy st' = last_cy st)
    /\ exists shown, overlay rep st' = shown ++ [DrawString 5 5 (status rep st')].
Proof.
  destruct (iteration_anchor cfg drv fr st w) as (res & st' & rep & w' & _ & Hi & Hrep & Ha).
  exists st', rep, w'. split; [exact Hi|].
  destruct res as [[[x y] n] v]. rewrite track_cases in Hrep, Ha.
  cbn [fst snd] in Hrep, Ha.
  assert (Hx := f_equal fst Ha). assert (Hy := f_equal snd Ha). clear Ha.
  cbn [fst snd] in Hx, Hy. subst rep.
  unfold overlay, truthy. cbn [r_cx r_cy out_valid].
  destruct (Z.eqb_spec v 0) as [Hv|Hv].
  - cbn in Hx, Hy |- *. split; [intros ? ? ? [H|[]]; discriminate|].
    split; [auto | exists []; reflexivity].
  - destruct (Z.eqb_spec x 0) as [Hx0|Hx0]; cbn in Hx, Hy |- *;
      [split; [intros ? ? ? [H|[]]; discriminate|];
       split; [auto | exists []; reflexivity]|].
    destruct (Z.eqb_spec y 0) as [Hy0|Hy0]; cbn in Hx, Hy |- *;
      [split; [intros ? ? ? [H|[]]; discriminate|];
       split; [auto | exists []; reflexivity]|].
    split.
    + intros x0 y0 size [H|[H|[H|[]]]]; try discriminate.
      inversion H; subst. repeat split; assumption.
    + split; [|eexists [_; _]; reflexivity].
      intros H. exfalso. apply (H x y 10). left. reflexivity.
Qed.

End LoopMore.

(** ** The line format *)

Section WireFacts.

Lemma digit_above c a :
  (nat_of_ascii c < 45)%nat -> (45 <= nat_of_ascii a)%nat -> Ascii.eqb a c = false.
Proof.
  intros Hc Ha. apply Ascii.eqb_neq. intros ->. lia.
Qed.

Lemma uint_no_char c d :
  (nat_of_ascii c < 45)%nat -> has_char c (NilEmpty.string_of_uint d) = false.
Proof.
  intros Hc. induction d; cbn [NilEmpty.string_of_uint has_char];
    rewrite ?IHd, ?orb_false_r; try reflexivity;
    apply digit_above; [exact Hc | cbn; lia | exact Hc | cbn; lia ..].
Qed.

Lemma str_no_char c z : (nat_of_ascii c < 45)%nat -> has_char c (str z) = false.
Proof.
  intros Hc. unfold str, NilZero.string_of_int, NilZero.string_of_uint.
  assert (H0 : has_char c "0" = false).
  { cbn [has_char]. rewrite orb_false_r. apply digit_above; [exact Hc | cbn; lia]. }
  destruct (Z.to_int z) as [d|d].
  - destruct d; try exact H0; apply (uint_no_char c _ Hc).
  - cbn [has_char]. rewrite (digit_above c "-" Hc) by (cbn; lia). cbn [orb].
    destruct d; try exact H0; apply (uint_no_char c _ Hc).
Qed.

Lemma append_sep_inj c s1 : forall s2 t1 t2,
  has_char c s1 = false -> has_char c s2 = false ->
  (s1 ++ String c t1 = s2 ++ String c t2)%string ->
  s1 = s2 /\ t1 = t2.
Proof.
  induction s1 as [|a s1 IH]; intros [|b s2] t1 t2 H1 H2 He; cbn in *.
  - injection He as ->. auto.
  - injection He as <- _. rewrite Ascii.eqb_refl in H2. discriminate.
  - injection He as -> _. rewrite Ascii.eqb_refl in H1. discriminate.
  - injection He as -> He. apply orb_false_iff in H1, H2.
    destruct (IH s2 t1 t2 (proj2 H1) (proj2 H2) He) as [-> ->]. auto.
Qed.

Lemma to_int_not_nil z : Z.to_int z <> Decimal.Pos Decimal.Nil
                         /\ Z.to_int z <> Decimal.Neg Decimal.Nil.
Proof.
  pose proof (DecimalZ.to_of (Z.to_int z)) as H. rewrite DecimalZ.of_to in H.
  split; intros E; rewrite E in H; discriminate H.
Qed.

Lemma str_inj z z' : str z = str z' -> z = z'.
Proof.
  unfold str. intros H. apply DecimalZ.to_int_inj.
  destruct (to_int_not_nil z) as [Hp Hn]. destruct (to_int_not_nil z') as [Hp' Hn'].
  pose proof (NilZero.isi _ Hp Hn) as E. pose proof (NilZero.isi _ Hp' Hn') as E'.
  rewrite H in E. congruence.
Qed.

(** X14. The line written for a centroid determines it: two centroids that
    give the same line are the same, so a reader of the link can recover both
    coordinates from a line. *)
Theorem wire_line_inj x y x' y' :
  wire_line x y = wire_line x' y' -> x = x' /\ y = y'.
Proof.
  unfold wire_line, UART_LINE_ENDING. intros H.
  change (str x ++ String "," (str y ++ String (ascii_of_nat 10) "")
          = str x' ++ String "," (str y' ++ String (ascii_of_nat 10) ""))%string in H.
  apply append_sep_inj in H; try (apply str_no_char; cbn; lia).
  destruct H as [Hx Hy].
  apply append_sep_inj in Hy; try (apply str_no_char; cbn; lia).
  destruct Hy as [Hy _]. split; apply str_inj; assumption.
Qed.

End WireFacts.

(** ** Worked frames, continued *)

Example wire_line_sample :
  wire_line 55 47 = ("55,47" ++ UART_LINE_ENDING)%string
  /\ wire_line 0 0 = ("0,0" ++ UART_LINE_ENDING)%string.
Proof. split; reflexivity. Qed.

Example first_frame_log :
  iteration shipped late (mkFrame frame240 [solid_blob])
    (mkSession 0 0 0 0 (Some (mkUART UART_PORT UART_BAUD))) []
  = inr (mkSession 55 47 1 1 (Some (mkUART UART_PORT UART_BAUD)),
         mkReport 55 47 1 4,
         [EvWrite (wire_line 55 47) true]).
Proof. reflexivity. Qed.

Lemma tag_meaning_witness :
  exists x y v,
    find_white_frame_center shipped frame240 0 0 [solid_blob; hollow_blob]
    = inr (x, y, Z.of_nat (List.length [solid_blob; hollow_blob]), v)
    /\ (v = 1 <-> exists b, In b [solid_blob; hollow_blob]
                            /\ strict_candidate shipped frame240 b)
    /\ (v = 3 <-> (~ exists b, In b [solid_blob; hollow_blob]
                               /\ strict_candidate shipped frame240 b)
                  /\ exists b, In b [solid_blob; hollow_blob]
                               /\ relaxed_candidate shipped frame240 b)
    /\ (v = 4 <-> (~ exists b, In b [solid_blob; hollow_blob]
                               /\ relaxed_candidate shipped frame240 b)
                  /\ exists b, In b [solid_blob; hollow_blob]
                               /\ passes_steps_1_3 shipped frame240 b)
    /\ (v = 0 <-> ~ exists b, In b [solid_blob; hollow_blob]
                              /\ passes_steps_1_3 shipped frame240 b).
Proof.
  apply (tag_meaning shipped frame240 0 0 [solid_blob; hollow_blob]).
  repeat split.
Defined.

Lemma detection_is_a_blob_witness :
  exists x y v,
    find_white_frame_center shipped frame240 0 0 [solid_blob]
    = inr (x, y, Z.of_nat (List.length [solid_blob]), v)
    /\ (v = 0 \/ v = 1 \/ v = 3 \/ v = 4)
    /\ (v = 0 -> x = 0 /\ y = 0)
    /\ (v <> 0 -> exists b, In b [solid_blob] /\ passes_steps_1_3 shipped frame240 b
                            /\ x = cx b /\ y = cy b).
Proof. exact (detection_is_a_blob shipped frame240 0 0 [solid_blob]). Defined.

Lemma tiers_nest_witness :
  exists r, relaxed (fst (evaluate shipped frame240 0 0 [solid_blob; hollow_blob])) = Some r
            /\ (score_of shipped frame240 0 0 hollow_blob
                <= score_of shipped frame240 0 0 r)%Q.
Proof.
  destruct (tiers_nest shipped frame240 0 0 [solid_blob; hollow_blob]) as [H _].
  apply (H hollow_blob). reflexivity.
Defined.

Lemma try_never_raises_witness :
  snd (try_body shipped frame240 0 0 hollow_blob (fst (evaluate shipped frame240 0 0 [])))
  <> Raise ZeroDivisionError.
Proof.
  apply (try_never_raises shipped frame240 0 0 [] hollow_blob).
  - repeat split.
  - cbn. lia.
Defined.

Lemma tag_order_free_witness :
  exists x y x' y' v,
    find_white_frame_center shipped frame240 0 0 [solid_blob; hollow_blob]
    = inr (x, y, Z.of_nat (List.length [solid_blob; hollow_blob]), v)
    /\ find_white_frame_center shipped frame240 0 0 [hollow_blob; solid_blob]
       = inr (x', y', Z.of_nat (List.length [solid_blob; hollow_blob]), v).
Proof.
  apply (tag_order_free shipped frame240 0 0 [solid_blob; hollow_blob]
           [hollow_blob; solid_blob]).
  apply perm_swap.
Defined.

Lemma score_at_most_area_witness :
  (score_of shipped frame240 150 120 left_blob <= QofZ (area left_blob))%Q
  /\ (pass_gates shipped frame240 left_blob = true ->
      (score_of shipped frame240 150 120 left_blob <= QofZ (MAX_AREA shipped))%Q).
Proof.
  apply (score_at_most_area shipped frame240 150 120 left_blob).
  - unfold Qle; cbn; lia.
  - unfold Qle; cbn; lia.
Defined.

(** With no prior centroid, the centred blob outscores one as far from the
    origin but off centre. *)
Lemma centre_bias_witness :
  (score_of shipped frame240 0 0 corner_blob < score_of shipped frame240 0 0 hollow_blob)%Q.
Proof.
  apply (centre_bias shipped frame240 0 0 corner_blob hollow_blob).
  - reflexivity.
  - reflexivity.
  - reflexivity.
  - reflexivity.
Defined.

Lemma tx_count_counts_witness :
  exists st' w',
    run shipped late [mkFrame frame240 [hollow_blob]; mkFrame frame240 [solid_blob]] cold []
    = inr (st', w')
    /\ tx_count st' - tx_count cold = Z.of_nat (ok_writes w') - Z.of_nat (ok_writes [])
    /\ ([mkFrame frame240 [hollow_blob]; mkFrame frame240 [solid_blob]] <> [] ->
        last_tx_ok st' = 0 \/ last_tx_ok st' = 1).
Proof.
  exact (tx_count_counts shipped late
           [mkFrame frame240 [hollow_blob]; mkFrame frame240 [solid_blob]] cold []).
Defined.

(** A session fresh from startup keeps its anchor unset or fully set. *)
Lemma anchor_provenance_witness :
  exists st' w',
    run shipped steady [mkFrame frame240 [hollow_blob]]
      (fst (startup steady [])) (snd (startup steady [])) = inr (st', w')
    /\ anchor_ok st'.
Proof.
  destruct (anchor_provenance shipped steady [mkFrame frame240 [hollow_blob]]
              (fst (startup steady [])) (snd (startup steady [])))
    as (st' & w' & Hr & _ & Hok).
  exists st', w'. split; [exact Hr|]. apply Hok. left. split; reflexivity.
Defined.

Lemma cross_iff_anchor_witness :
  exists st' rep w',
    iteration shipped steady (mkFrame frame240 [hollow_blob]) cold [] = inr (st', rep, w')
    /\ (forall x y size, In (DrawCross x y size) (overlay rep st') ->
          last_cx st' = x /\ last_cy st' = y /\ x <> 0 /\ y <> 0
          /\ out_valid rep <> 0 /\ size = 10)
    /\ ((forall x y size, ~ In (DrawCross x y size) (overlay rep st')) ->
          last_cx st' = last_cx cold /\ last_cy st' = last_cy cold)
    /\ exists shown, overlay rep st' = shown ++ [DrawString 5 5 (status rep st')].
Proof.
  exact (cross_iff_anchor shipped steady (mkFrame frame240 [hollow_blob]) cold []).
Defined.

Lemma wire_line_inj_witness : 55 = 55 /\ 47 = 47.
Proof. apply (wire_line_inj 55 47 55 47). reflexivity. Defined.

(** ** Degenerate boxes under the shipped kind of constants *)

Section GuardFacts.
Variable cfg : Config.
Variable gray_img : Image.
Variables lx ly : Z.

Lemma plain_fault_none b : plain_config cfg -> fault_of cfg gray_img b = None.
Proof.
  intros Hp. unfold fault_of.
  destruct (pass_gates cfg gray_img b) eqn:Hg; cbn [negb]; [|reflexivity].
  destruct (plain_box_nonzero cfg gray_img b Hp Hg) as [-> ->].
  rewrite (plain_no_edge cfg gray_img b Hp), andb_false_r.
  destruct (aspect_ok cfg b), (density_ok cfg b); reflexivity.
Qed.

Lemma degenerate_rejected b :
  plain_config cfg -> rect_w b = 0 \/ rect_h b = 0 -> pass_gates cfg gray_img b = false.
Proof.
  intros (Hw & Hh & _) Hd. unfold pass_gates.
  assert (E : (rect_w b <? MIN_W cfg) || (rect_h b <? MIN_H cfg) = true).
  { apply orb_true_iff. rewrite !Z.ltb_lt. destruct Hd as [-> | ->]; [left | right]; lia. }
  rewrite E. cbn [negb]. rewrite andb_false_r. reflexivity.
Qed.

Lemma rejected_step s b :
  wf cfg gray_img lx ly s -> pass_gates cfg gray_img b = false ->
  step cfg gray_img lx ly s b = s.
Proof.
  intros Hwf Hg. unfold step, strict_elig, relaxed_elig, fallback_elig, reaches_tiers.
  rewrite Hg. cbn [andb]. symmetry. apply wf_shape, Hwf.
Qed.

(** C9. With positive minimum box sizes and no edge margin, as the script
    ships: no exception leaves the scan or the function, and none arises in
    the [try] body on any blob.  A blob whose box has zero width or zero
    height, the geometry on which the aspect or the density division would
    fail, is turned away before those divisions: the scan of a frame holding
    such a blob ends exactly as the scan of the frame without it, so the blobs
    around it are evaluated as usual, and no tier slot ever holds such a
    blob. *)
Theorem faults_stay_local :
  plain_config cfg ->
  (forall l, exists s r,
      evaluate cfg gray_img lx ly l = (s, Normal tt)
      /\ find_white_frame_center cfg gray_img lx ly l = inr r)
  /\ (forall pre b e,
        area b <= MAX_AREA cfg ->
        snd (try_body cfg gray_img lx ly b (fst (evaluate cfg gray_img lx ly pre)))
        <> Raise e)
  /\ (forall pre b post,
        rect_w b = 0 \/ rect_h b = 0 ->
        evaluate cfg gray_img lx ly (pre ++ b :: post)
        = evaluate cfg gray_img lx ly (pre ++ post))
  /\ (forall l m,
        let s := fst (evaluate cfg gray_img lx ly l) in
        best s = Some m \/ relaxed s = Some m \/ fallback s = Some m ->
        In m l /\ rect_w m <> 0 /\ rect_h m <> 0).
Proof.
  intros Hp. split; [|split; [|split]].
  - intros l. exists (fold_left (step cfg gray_img lx ly) l locals0).
    rewrite fwfc_run. eexists. split; [apply evaluate_run | reflexivity].
  - intros pre b e Ha Hr.
    assert (Hwf : wf cfg gray_img lx ly (fst (evaluate cfg gray_img lx ly pre))).
    { rewrite fst_eval. apply fold_step_wf, wf_locals0. }
    assert (Ha' : (area b >? MAX_AREA cfg) = false)
      by (rewrite Z.gtb_ltb; apply Z.ltb_ge; lia).
    destruct (try_body_run cfg gray_img lx ly _ b Hwf Ha') as [_ Hf].
    rewrite Hr, (plain_fault_none b Hp) in Hf. discriminate Hf.
  - intros pre b post Hd. rewrite !evaluate_run, !fold_left_app. cbn [fold_left].
    rewrite rejected_step; [reflexivity | apply fold_step_wf, wf_locals0
                            | apply degenerate_rejected; assumption].
  - intros l m s Hs.
    assert (Hg : In m l /\ pass_gates cfg gray_img m = true).
    { unfold s in Hs. rewrite best_eval, relaxed_eval, fallback_eval in Hs.
      destruct Hs as [H|[H|H]]; apply pick_in, filter_In in H; destruct H as [Hin He];
        (split; [exact Hin|]);
        [apply strict_elig_gates | apply relaxed_elig_gates | ]; exact He. }
    destruct Hg as [Hin Hg]. split; [exact Hin|].
    destruct Hp as (Hw & Hh & _). apply pass_gates_iff in Hg.
    destruct Hg as (_ & Hgw & Hgh & _). split; lia.
Qed.

End GuardFacts.

(** The shipped script on a frame with a zero-height blob between two others:
    the scan ends as it does on the frame without that blob. *)
Lemma faults_stay_local_witness :
  evaluate shipped frame240 0 0 ([hollow_blob] ++ flat_blob :: [solid_blob])
  = evaluate shipped frame240 0 0 ([hollow_blob] ++ [solid_blob]).
Proof.
  destruct (faults_stay_local shipped frame240 0 0
              (conj eq_refl (conj eq_refl eq_refl))) as (_ & _ & H & _).
  apply H. right. reflexivity.
Defined.

Example scenario_flat_blob :
  find_white_frame_center shipped frame240 0 0 [flat_blob] = inr (0, 0, 1, 0)
  /\ fallback (fst (evaluate shipped frame240 0 0 [flat_blob])) = None.
Proof. split; reflexivity. Qed.
